(** * The sketch catalog of skizze: [counters/manager.go]

    A shallow embedding of [ManagerStruct] and its methods, and the
    properties of the catalog that the specification states about them.

    The manager is written against collaborators whose code lives in other
    packages: the storage manager ([storage.GetManager()]), the estimator
    wrappers ([hllpp], [topk], [cml], all behind the interface
    [abstract.Counter]), [encoding/json] and the configuration.  They are
    interfaces here (type classes), so the theorems hold for every
    implementation; small executable instances are given further down to
    run the manager on concrete inputs. *)

From Stdlib Require Import ZArith String Ascii PrimFloat.
From stdpp Require Import base option list gmap strings sorting.

Local Open Scope Z_scope.

(** ** Package [abstract]: family tags and descriptors *)

Module abstract.

(** Modelled from the spec: the three constants of package [abstract] are
    declared outside [manager.go]; the specification gives their values
    ("Family tag strings"). *)
Definition HLLPP : string := "cardinality".
Definition CML : string := "frequency".
Definition TopK : string := "top-k".

(** [abstract.Info].  [Type] is a keyword, so the field is [Typ].  A Go
    map that is [nil] reads as the empty map. *)
Record Info : Type := mkInfo {
  ID : string;
  Typ : string;
  Properties : gmap string float;
  State : gmap string N
}.

(** The zero value of the struct ([var infoStruct abstract.Info]). *)
Definition zero : Info :=
  {| ID := ""; Typ := ""; Properties := ∅; State := ∅ |}.

End abstract.

Import abstract.

(** ** Errors

    The manager builds its errors with [errors.New] on a formatted text.
    Each constructor is one of these texts, named after the error taxonomy
    of the specification, with the data that is formatted into it. *)
Inductive error : Type :=
| DuplicateId (id typ : string)
    (* "Sketch %s of type %s already exists" *)
| IdTooLong (len max : Z)
    (* "Invalid length of sketch ID: %d. Max length allowed: %d" *)
| MissingFamily
    (* "No sketch type was given!" *)
| UnknownFamily (sketchType : string)
    (* "Invalid sketch type: " + sketchType *)
| FamilyConstructionFailed (i : Info) (err : error)
    (* "Could not load sketch ", info, ". Err:", err *)
| NotFound (text : string)
    (* "No such sketch ..." *)
| Foreign (text : string).
    (* an error value made by a collaborator *)

(** The three texts of [NotFound]. *)
Definition no_such_sketch (sketchID : string) : string :=
  "No such sketch " +:+ sketchID.
Definition no_such_sketch_colon (sketchID : string) : string :=
  "No such sketch: " +:+ sketchID.
Definition no_such_sketch_of_type (sketchID sketchType : string) : string :=
  "No such sketch " +:+ sketchID +:+ " of type " +:+ sketchType +:+ " found".

(** ** The collaborators, as interfaces *)

(** [config.MaxKeySize]. *)
Class Config : Type := { MaxKeySize : Z }.

(** Go leaves the order of [range] over a map unspecified: [range_order]
    is the order the runtime picks. *)
Class GoRuntime : Type := {
  range_order : ∀ {V : Type}, gmap string V → list (string * V);
  range_order_perm : ∀ (V : Type) (m : gmap string V),
    range_order m ≡ₚ map_to_list m
}.

(** [encoding/json] on [abstract.Info].  [json.Unmarshal(data, &v)] updates
    [v] in place; the manager drops the error it returns. *)
Class Json (Bytes : Type) : Type := {
  json_Marshal : Info → Bytes + error;
  json_Unmarshal : Bytes → Info → Info
}.

(** The methods of [storage.GetManager()] that the manager calls.  Each
    acts on the state of the store.  [LoadAllInfo] yields the descriptors
    in the order in which the loop of [loadInfo] meets them. *)
Class Storage (Bytes Store : Type) : Type := {
  SaveInfo : string → Bytes → Store → Store * option error;
  LoadAllInfo : Store → list (string * Bytes) + error;
  DeleteInfo : string → Store → Store * option error;
  DeleteData : string → Store → Store * option error;
  LoadData : string → Z → Z → Store → Store
}.

(** The interface [abstract.Counter]: [Sk] is the state of an estimator
    object, [Res] what [GetFrequency] returns.  The methods that write
    also act on the store, where estimators keep their state. *)
Class Counter (Sk Store Res : Type) : Type := {
  GetType : Sk → string;
  GetID : Sk → string;
  AddMultiple : list (list Byte.byte) → Sk → Store → Sk * Store;
  RemoveMultiple : list (list Byte.byte) → Sk → Store → Sk * Store * option error;
  GetFrequency : option (list (list Byte.byte)) → Sk → Res;
  GetCount : Sk → N
}.

(** The constructors of the three wrapper packages.  A constructor is
    given the descriptor that its [*abstract.Info] argument points to. *)
Class Wrappers (Sk Store : Type) : Type := {
  hllpp_NewSketch : Info → Store → (Sk + error) * Store;
  topk_NewSketch : Info → Store → (Sk + error) * Store;
  cml_NewSketch : Info → Store → (Sk + error) * Store;
  hllpp_NewSketchFromData : Info → Store → (Sk + error) * Store;
  topk_NewSketchFromData : Info → Store → (Sk + error) * Store;
  cml_NewSketchFromData : Info → Store → (Sk + error) * Store
}.

(** ** The state of the process *)

(** Pointers to [abstract.Info] structs. *)
Definition loc : Type := positive.

(** [sketches] and [info] are the two fields of [ManagerStruct]; a value
    of the interface type [abstract.Counter] is [None] when it is [nil].
    [heap] holds the [Info] structs that [info] points to, [strg] is the
    state behind [storage.GetManager()], [logger] what was logged. *)
Record World (Sk Store : Type) : Type := mkWorld {
  sketches : gmap string (option Sk);
  info : gmap string loc;
  heap : gmap loc Info;
  strg : Store;
  logger : list string
}.

Arguments mkWorld {Sk Store}.
Arguments sketches {Sk Store}.
Arguments info {Sk Store}.
Arguments heap {Sk Store}.
Arguments strg {Sk Store}.
Arguments logger {Sk Store}.

(** What a call does: it returns, or it panics. *)
Inductive outcome (W A : Type) : Type :=
| Returned (a : A) (w : W)
| Panicked (w : W).

Arguments Returned {W A}.
Arguments Panicked {W A}.

(** [interface{}] as [GetCountForSketch] returns it. *)
Inductive value (Res : Type) : Type :=
| VInt (z : Z)
| VCount (n : N)
| VFrequency (r : Res).

Arguments VInt {Res}.
Arguments VCount {Res}.
Arguments VFrequency {Res}.

Section Manager.

Context {Bytes Store Sk Res : Type}.
Context `{!Config, !GoRuntime, !Json Bytes, !Storage Bytes Store,
          !Counter Sk Store Res, !Wrappers Sk Store}.

Local Abbreviation World := (World Sk Store).

Definition set_sketches (f : gmap string (option Sk) → gmap string (option Sk))
    (w : World) : World :=
  mkWorld (f (sketches w)) (info w) (heap w) (strg w) (logger w).

Definition set_info (f : gmap string loc → gmap string loc) (w : World) : World :=
  mkWorld (sketches w) (f (info w)) (heap w) (strg w) (logger w).

Definition set_heap (f : gmap loc Info → gmap loc Info) (w : World) : World :=
  mkWorld (sketches w) (info w) (f (heap w)) (strg w) (logger w).

Definition set_strg (st : Store) (w : World) : World :=
  mkWorld (sketches w) (info w) (heap w) st (logger w).

Definition Println (line : string) (w : World) : World :=
  mkWorld (sketches w) (info w) (heap w) (strg w) (logger w ++ [line]).

(** [*p]. *)
Definition deref (w : World) (p : loc) : Info :=
  default zero (heap w !! p).

(** [fmt.Sprintf("%s.%s", sketchID, sketchType)]. *)
Definition canonical (sketchID sketchType : string) : string :=
  sketchID +:+ "." +:+ sketchType.

(** The [switch] on a family tag: cases [HLLPP], [TopK], [CML], [default]. *)
Definition switch {A : Type} (typ : string) (hll top cm dflt : A) : A :=
  if decide (typ = HLLPP) then hll
  else if decide (typ = TopK) then top
  else if decide (typ = CML) then cm
  else dflt.

(** [[]byte(value)] for each value. *)
Definition to_bytes (values : list string) : list (list Byte.byte) :=
  list_byte_of_string <$> values.

(** *** [dumpInfo] *)
Definition dumpInfo (i : loc) (w : World) : outcome World unit :=
  let id := ID (deref w i) in
  let w1 := set_info (<[id := i]>) w in
  match json_Marshal (deref w1 i) with
  | inr _ => Panicked w1
  | inl infoData =>
      Returned tt (set_strg (SaveInfo id infoData (strg w1)).1 w1)
  end.

(** *** [CreateSketch] *)
Definition CreateSketch (sketchID sketchType : string)
    (props : gmap string float) (w : World) : outcome World (option error) :=
  let id := canonical sketchID sketchType in
  match info w !! id with
  | Some p => Returned (Some (DuplicateId id (Typ (deref w p)))) w
  | None =>
    if MaxKeySize <? Z.of_nat (String.length id) then
      Returned (Some (IdTooLong (Z.of_nat (String.length id)) MaxKeySize)) w
    else if decide (sketchType = "") then
      Returned (Some MissingFamily)
               (Println "SketchType is mandatory and must be set!" w)
    else
      let p := fresh (dom (heap w)) in
      let w1 := set_heap (<[p := mkInfo id sketchType props ∅]>) w in
      match switch sketchType (Some hllpp_NewSketch) (Some topk_NewSketch)
                   (Some cml_NewSketch) None with
      | None => Returned (Some (UnknownFamily sketchType)) w1
      | Some NewSketch =>
        match NewSketch (deref w1 p) (strg w1) with
        | (inr err, st) =>
            Returned (Some (FamilyConstructionFailed (deref w1 p) err))
                     (set_strg st w1)
        | (inl sketch, st) =>
            let w2 := set_sketches (<[ID (deref w1 p) := Some sketch]>)
                                   (set_strg st w1) in
            match dumpInfo p w2 with
            | Returned _ w3 => Returned None w3
            | Panicked w3 => Panicked w3
            end
        end
      end
  end.

(** *** [DeleteSketch] *)
Definition DeleteSketch (sketchID sketchType : string) (w : World)
    : outcome World (option error) :=
  let id := canonical sketchID sketchType in
  match sketches w !! id with
  | None => Returned (Some (NotFound (no_such_sketch sketchID))) w
  | Some _ =>
    let w1 := set_info (delete id) (set_sketches (delete id) w) in
    match DeleteInfo id (strg w1) with
    | (st1, Some err) => Returned (Some err) (set_strg st1 w1)
    | (st1, None) =>
        let '(st2, err) := DeleteData id st1 in
        Returned err (set_strg st2 w1)
    end
  end.

(** *** [GetSketches] *)

(** One turn of the loop: the entry for [v], or [None] when the turn
    panics: [v] is [nil], or the slice bound [len(id)-len(typ)-1] is
    negative. *)
Definition entry (v : option Sk) : option string :=
  match v with
  | None => None
  | Some v =>
    let typ := GetType v in
    let id := GetID v in
    let n := Z.of_nat (String.length id) - Z.of_nat (String.length typ) - 1 in
    if n <? 0 then None
    else Some (typ +:+ "/" +:+ substring 0 (Z.to_nat n) id)
  end.

Definition GetSketches (w : World)
    : outcome World (list string * option error) :=
  match mapM (λ kv, entry kv.2) (range_order (sketches w)) with
  | Some l => Returned (l, None) w
  | None => Panicked w
  end.

(** *** [AddToSketch] *)
Definition AddToSketch (sketchID sketchType : string) (values : list string)
    (w : World) : outcome World (option error) :=
  let id := canonical sketchID sketchType in
  match sketches w !! id with
  | None =>
      Returned (Some (NotFound (no_such_sketch_of_type sketchID sketchType))) w
  | Some None => Panicked w
  | Some (Some counter) =>
      let '(counter', st) := AddMultiple (to_bytes values) counter (strg w) in
      Returned None (set_sketches (<[id := Some counter']>) (set_strg st w))
  end.

(** *** [DeleteFromSketch] *)
Definition DeleteFromSketch (sketchID sketchType : string)
    (values : list string) (w : World) : outcome World (option error) :=
  match sketches w !! sketchID with
  | None => Returned (Some (NotFound (no_such_sketch_colon sketchID))) w
  | Some None => Panicked w
  | Some (Some counter) =>
      let '(counter', st, err) :=
        RemoveMultiple (to_bytes values) counter (strg w) in
      Returned err (set_sketches (<[sketchID := Some counter']>) (set_strg st w))
  end.

(** *** [GetCountForSketch] *)
Definition GetCountForSketch (sketchID sketchType : string)
    (values : list string) (w : World)
    : outcome World (value Res * option error) :=
  let id := canonical sketchID sketchType in
  match sketches w !! id with
  | None =>
      Returned (VInt 0,
                Some (NotFound (no_such_sketch_of_type sketchID sketchType))) w
  | Some None => Panicked w
  | Some (Some counter) =>
      if decide (GetType counter = CML) then
        Returned (VFrequency (GetFrequency (Some (to_bytes values)) counter),
                  None) w
      else if decide (GetType counter = TopK) then
        Returned (VFrequency (GetFrequency None counter), None) w
      else
        Returned (VCount (GetCount counter), None) w
  end.

(** *** [loadInfo] *)

(** One turn of the loop, [infoStruct] being the struct at [p]. *)
Definition loadInfo_turn (p : loc) (w : World) (infoData : Bytes) : World :=
  let w1 := set_heap (<[p := json_Unmarshal infoData (deref w p)]>) w in
  set_info (<[ID (deref w1 p) := p]>) w1.

Definition loadInfo (w : World) : outcome World (option error) :=
  let p := fresh (dom (heap w)) in
  let w0 := set_heap (<[p := zero]>) w in
  match LoadAllInfo (strg w0) with
  | inr err => Returned (Some err) w0
  | inl infos =>
      Returned None (foldl (λ w kv, loadInfo_turn p w kv.2) w0 infos)
  end.

(** *** [loadSketches] *)
Fixpoint loadSketches_range (entries : list (string * loc)) (w : World)
    : outcome World (option error) :=
  match entries with
  | [] => Returned None w
  | (key, p) :: entries =>
    let i := deref w p in
    let '(sketch, err, w1) :=
      match switch (Typ i) (Some hllpp_NewSketchFromData)
                   (Some topk_NewSketchFromData)
                   (Some cml_NewSketchFromData) None with
      | Some NewSketchFromData =>
          match NewSketchFromData i (strg w) with
          | (inl sketch, st) => (Some sketch, None, set_strg st w)
          | (inr err, st) => (None, Some err, set_strg st w)
          end
      | None => (None, None, Println ("Invalid counter type " +:+ Typ i) w)
      end in
    match err with
    | Some err => Returned (Some (FamilyConstructionFailed i err)) w1
    | None =>
        let w2 := set_sketches (<[ID (deref w1 p) := sketch]>) w1 in
        loadSketches_range entries
          (set_strg (LoadData key 0 0 (strg w2)) w2)
    end
  end.

Definition loadSketches (w : World) : outcome World (option error) :=
  loadSketches_range (range_order (info w)) w.

(** *** [newManager]

    The new [ManagerStruct] starts with two empty maps.  When an error is
    returned the manager is dropped ([nil]). *)
Definition newManager (w : World) : outcome World (option error) :=
  let m := set_info (λ _, ∅) (set_sketches (λ _, ∅) w) in
  match loadInfo m with
  | Returned (Some err) w1 => Returned (Some err) w1
  | Returned None w1 => loadSketches w1
  | Panicked w1 => Panicked w1
  end.

(** ** What the theorems speak of *)

(** The world a call ends in, whether it returns or panics. *)
Definition final {A : Type} (o : outcome World A) : World :=
  match o with Returned _ w => w | Panicked w => w end.

(** The family tags that [CreateSketch] accepts. *)
Definition known (typ : string) : Prop :=
  typ = HLLPP ∨ typ = TopK ∨ typ = CML.

(** Invariant I2: every registered id fits [MaxKeySize]. *)
Definition I2 (w : World) : Prop :=
  ∀ id p, info w !! id = Some p → Z.of_nat (String.length id) ≤ MaxKeySize.

(** Every entry of [sketches] is a live estimator that names its own key,
    and the key is the canonical id of a name and the estimator's family. *)
Definition catalog_ok (w : World) : Prop :=
  ∀ k c, sketches w !! k = Some c →
    ∃ sk name, c = Some sk ∧ GetID sk = k ∧ known (GetType sk)
               ∧ k = canonical name (GetType sk).

(** One call of an operation that changes the catalog. *)
Inductive step : World → World → Prop :=
| step_create sketchID sketchType props w :
    step w (final (CreateSketch sketchID sketchType props w))
| step_delete sketchID sketchType w :
    step w (final (DeleteSketch sketchID sketchType w))
| step_add sketchID sketchType values w :
    step w (final (AddToSketch sketchID sketchType values w))
| step_remove sketchID sketchType values w :
    step w (final (DeleteFromSketch sketchID sketchType values w)).

(** The worlds that calls lead to from a catalog with no sketch. *)
Definition reachable (w : World) : Prop :=
  ∃ w0, sketches w0 = ∅ ∧ rtc step w0 w.

(** How many entries of a listing are the text [s]. *)
Definition entries_for (s : string) (l : list string) : nat :=
  length (filter (λ x, x = s) l).

(** What relates a binding of [sketches] to its entry in the listing. *)
Definition shown (kv : string * option Sk) (s : string) : Prop :=
  ∃ name t, known t ∧ kv.1 = canonical name t ∧ s = t +:+ "/" +:+ name.

(** The contract of [GetID] and [GetType] ("identity accessors"): an
    estimator reports the id and the family of the descriptor it was made
    from, and keeps them when values are added or removed. *)
Class IdentityAccessors : Prop := {
  hllpp_identity : ∀ i st sk st',
    hllpp_NewSketch i st = (inl sk, st') → GetID sk = ID i ∧ GetType sk = Typ i;
  topk_identity : ∀ i st sk st',
    topk_NewSketch i st = (inl sk, st') → GetID sk = ID i ∧ GetType sk = Typ i;
  cml_identity : ∀ i st sk st',
    cml_NewSketch i st = (inl sk, st') → GetID sk = ID i ∧ GetType sk = Typ i;
  add_identity : ∀ values sk st,
    GetID (AddMultiple values sk st).1 = GetID sk
    ∧ GetType (AddMultiple values sk st).1 = GetType sk;
  remove_identity : ∀ values sk st,
    GetID (RemoveMultiple values sk st).1.1 = GetID sk
    ∧ GetType (RemoveMultiple values sk st).1.1 = GetType sk
}.

End Manager.

(** ** Executable instances of the collaborators

    Used to run the manager on concrete inputs.  No theorem about the
    manager depends on them, except the examples that name them. *)

Module Mem.

(** Modelled from the spec: [encoding/json] is not part of the repository.
    A byte string is identified with the JSON text it spells: either it is
    malformed, or it is an object in which each of the keys [id], [type],
    [properties] and [state] of the descriptor envelope is present or
    not. *)
Record JsonObject : Type := mkJson {
  j_id : option string;
  j_type : option string;
  j_properties : option (gmap string float);
  j_state : option (gmap string N)
}.

Inductive JsonText : Type :=
| Malformed
| Object (o : JsonObject).

(** [json.Marshal] refuses a float that is not finite. *)
Definition Marshal (i : Info) : JsonText + error :=
  if decide (map_Forall (λ _ x, is_finite x = true) (Properties i)) then
    inl (Object (mkJson (Some (ID i)) (Some (Typ i)) (Some (Properties i))
                        (Some (State i))))
  else inr (Foreign "json: unsupported value").

(** [json.Unmarshal] into a struct that already holds values: a key that
    is present overwrites its field, a map keeps the entries it has and
    receives the decoded ones; malformed text leaves the struct alone. *)
Definition Unmarshal (data : JsonText) (v : Info) : Info :=
  match data with
  | Malformed => v
  | Object o =>
      mkInfo (default (ID v) (j_id o))
             (default (Typ v) (j_type o))
             (from_option (λ m, m ∪ Properties v) (Properties v) (j_properties o))
             (from_option (λ m, m ∪ State v) (State v) (j_state o))
  end.

#[export] Instance json : Json JsonText :=
  {| json_Marshal := Marshal; json_Unmarshal := Unmarshal |}.

(** Modelled from the spec: package [storage] is not part of the
    repository.  Two namespaces keyed by canonical id; a blob is the list
    of values its estimator has taken in.  When [broken] is set every
    write fails and changes nothing. *)
Record MemStore : Type := mkStore {
  infoDB : gmap string JsonText;
  dataDB : gmap string (list (list Byte.byte));
  broken : bool
}.

Definition write_failed : error := Foreign "store: write failed".

Definition store_SaveInfo (id : string) (data : JsonText) (st : MemStore)
    : MemStore * option error :=
  if broken st then (st, Some write_failed)
  else (mkStore (<[id := data]> (infoDB st)) (dataDB st) false, None).

Definition store_DeleteInfo (id : string) (st : MemStore)
    : MemStore * option error :=
  if broken st then (st, Some write_failed)
  else (mkStore (delete id (infoDB st)) (dataDB st) false, None).

Definition store_SaveData (id : string) (blob : list (list Byte.byte))
    (st : MemStore) : MemStore :=
  if broken st then st
  else mkStore (infoDB st) (<[id := blob]> (dataDB st)) false.

Definition store_DeleteData (id : string) (st : MemStore)
    : MemStore * option error :=
  if broken st then (st, Some write_failed)
  else (mkStore (infoDB st) (delete id (dataDB st)) false, None).

#[export] Instance storage : Storage JsonText MemStore := {|
  SaveInfo := store_SaveInfo;
  LoadAllInfo := λ st, inl (map_to_list (infoDB st));
  DeleteInfo := store_DeleteInfo;
  DeleteData := store_DeleteData;
  LoadData := λ _ _ _ st, st
|}.

(** Modelled from the spec: the wrapper packages are not part of the
    repository.  [Tally] counts exactly: it keeps its descriptor and the
    values it has taken in, and saves them as its blob. *)
Record Tally : Type := mkTally {
  t_info : Info;
  t_items : list (list Byte.byte)
}.

#[export] Instance byte_eq_dec : EqDecision Byte.byte := Byte.byte_eq_dec.

Definition occurrences (v : list Byte.byte) (items : list (list Byte.byte)) : N :=
  N.of_nat (length (filter (λ x, x = v) items)).

Fixpoint remove_one (v : list Byte.byte) (items : list (list Byte.byte))
    : list (list Byte.byte) :=
  match items with
  | [] => []
  | x :: items => if decide (x = v) then items else x :: remove_one v items
  end.

Definition tally_Add (values : list (list Byte.byte)) (t : Tally)
    (st : MemStore) : Tally * MemStore :=
  let items := t_items t ++ values in
  (mkTally (t_info t) items, store_SaveData (ID (t_info t)) items st).

Definition tally_Remove (values : list (list Byte.byte)) (t : Tally)
    (st : MemStore) : Tally * MemStore * option error :=
  if decide (Typ (t_info t) = CML) then
    let items := foldl (λ items v, remove_one v items) (t_items t) values in
    (mkTally (t_info t) items, store_SaveData (ID (t_info t)) items st, None)
  else (t, st, Some (Foreign "not supported")).

(** Larger counts first. *)
Definition by_count (x y : list Byte.byte * N) : Prop := (y.2 ≤ x.2)%N.

#[export] Instance by_count_dec : RelDecision by_count :=
  λ x y, decide ((y.2 ≤ x.2)%N).

Definition tally_Frequency (values : option (list (list Byte.byte)))
    (t : Tally) : list (list Byte.byte * N) :=
  match values with
  | Some values => (λ v, (v, occurrences v (t_items t))) <$> values
  | None =>
      merge_sort by_count
        ((λ v, (v, occurrences v (t_items t))) <$> remove_dups (t_items t))
  end.

#[export] Instance counter : Counter Tally MemStore (list (list Byte.byte * N)) := {|
  GetType := λ t, Typ (t_info t);
  GetID := λ t, ID (t_info t);
  AddMultiple := tally_Add;
  RemoveMultiple := tally_Remove;
  GetFrequency := tally_Frequency;
  GetCount := λ t, N.of_nat (length (remove_dups (t_items t)))
|}.

Definition tally_New (i : Info) (st : MemStore) : (Tally + error) * MemStore :=
  (inl (mkTally i []), st).

Definition tally_FromData (i : Info) (st : MemStore)
    : (Tally + error) * MemStore :=
  match dataDB st !! ID i with
  | Some items => (inl (mkTally i items), st)
  | None => (inr (Foreign "no data"), st)
  end.

#[export] Instance wrappers : Wrappers Tally MemStore := {|
  hllpp_NewSketch := tally_New;
  topk_NewSketch := tally_New;
  cml_NewSketch := tally_New;
  hllpp_NewSketchFromData := tally_FromData;
  topk_NewSketchFromData := tally_FromData;
  cml_NewSketchFromData := tally_FromData
|}.

(** A configuration with keys of at most 64 bytes. *)
#[export] Instance config : Config := {| MaxKeySize := 64 |}.

(** A runtime that ranges over a map in the order of [map_to_list]. *)
#[export] Instance runtime : GoRuntime :=
  {| range_order := λ V m, map_to_list m; range_order_perm := λ V m, reflexivity _ |}.

(** A fresh process: nothing in memory, nothing stored. *)
Definition boot (broken : bool) : World Tally MemStore :=
  mkWorld ∅ ∅ ∅ (mkStore ∅ ∅ broken) [].

(** The process started again over the store that [w] leaves behind. *)
Definition restart (w : World Tally MemStore) : World Tally MemStore :=
  mkWorld ∅ ∅ ∅ (strg w) [].

Definition capacity : gmap string float := {[ "capacity" := 100000%float ]}.

(** The scenarios of the specification: one cardinality sketch, fed three
    values, then a frequency sketch next to it, fed four. *)
Definition marvel : World Tally MemStore :=
  final (CreateSketch "marvel" "cardinality" capacity (boot false)).

Definition marvel_fed : World Tally MemStore :=
  final (AddToSketch "marvel" "cardinality" ["magneto"; "wasp"; "beast"] marvel).

Definition both : World Tally MemStore :=
  final (AddToSketch "x-force" "frequency"
           ["magneto"; "wasp"; "beast"; "magneto"]
           (final (CreateSketch "x-force" "frequency" capacity marvel_fed))).

(** An info store that holds one descriptor, of a family this program
    does not know. *)
Definition stale : World Tally MemStore :=
  mkWorld ∅ ∅ ∅
    (mkStore {[ "old.bloom" :=
                  Object (mkJson (Some "old.bloom") (Some "bloom")
                                 (Some ∅) (Some ∅)) ]} ∅ false) [].

End Mem.

(** ** The singleton

    [var manager *ManagerStruct] is [nil] or points to the one manager of
    the process; [manager] tells which, and the fields of that manager are
    [sketches] and [info] of [world].  What a [nil] variable leaves there
    is garbage: [newManager] starts from two fresh maps. *)
Record Process (Sk Store : Type) : Type := mkProcess {
  manager : bool;
  world : World Sk Store
}.

Arguments mkProcess {Sk Store}.
Arguments manager {Sk Store}.
Arguments world {Sk Store}.

(** A name without the separator of canonical ids. *)
Definition dot_free (name : string) : Prop :=
  "."%char ∉ list_ascii_of_string name.

Section Singleton.

Context {Bytes Store Sk Res : Type}.
Context `{!Config, !GoRuntime, !Json Bytes, !Storage Bytes Store,
          !Counter Sk Store Res, !Wrappers Sk Store}.

Local Abbreviation World := (World Sk Store).
Local Abbreviation Process := (Process Sk Store).

(** *** [GetManager]

    The pointer that is returned is [true] when it is not [nil]. *)
Definition GetManager (p : Process) : outcome Process (bool * option error) :=
  if manager p then Returned (true, None) p
  else
    match newManager (world p) with
    | Returned None w => Returned (true, None) (mkProcess true w)
    | Returned (Some err) w => Returned (false, Some err) (mkProcess false w)
    | Panicked w => Panicked (mkProcess false w)
    end.

(** *** [Destroy] *)
Definition Destroy (p : Process) : Process :=
  mkProcess false (world p).

(** A manager as [newManager] has it before it loads anything. *)
Definition fresh_start (w : World) : Prop :=
  sketches w = ∅ ∧ info w = ∅.

(** The two maps of the manager hold the same ids. *)
Definition maps_agree (w : World) : Prop :=
  ∀ k, is_Some (sketches w !! k) ↔ is_Some (info w !! k).

(** Every id of [info] points to a struct that carries this id and one of
    the three family tags. *)
Definition info_ok (w : World) : Prop :=
  ∀ id p, info w !! id = Some p →
    ∃ i, heap w !! p = Some i ∧ ID i = id ∧ known (Typ i).

(** What [infoStruct] holds after the loop of [loadInfo]: every stored
    text decoded into the one struct, in turn. *)
Definition merged (infos : list (string * Bytes)) : Info :=
  foldl (λ i kv, json_Unmarshal kv.2 i) zero infos.

End Singleton.

(** ** More worlds to run the manager on *)

Module Runs.

Import Mem.

(** Properties that [json.Marshal] refuses. *)
Definition not_a_number : gmap string float := {[ "capacity" := nan ]}.

(** Two sketches were stored and the process has started again. *)
Definition lost : World Tally MemStore :=
  final (newManager (restart both)).

(** One fed sketch is stored and no manager is made yet. *)
Definition cold : Process Tally MemStore :=
  mkProcess false (restart marvel_fed).

(** A sketch whose name holds the separator. *)
Definition dotted : World Tally MemStore :=
  final (CreateSketch "a.b" "top-k" capacity (boot false)).

End Runs.

(** ** Properties of the manager *)

Section Properties.

Context {Bytes Store Sk Res : Type}.
Context {cfg : Config} {rt : GoRuntime} {js : Json Bytes}
        {sto : Storage Bytes Store} {cnt : Counter Sk Store Res}
        {wrp : Wrappers Sk Store}.

Local Abbreviation World := (World Sk Store).

Implicit Types (w : World) (sketchID sketchType : string).

(** *** Pointers *)

Lemma fresh_unallocated w : heap w !! fresh (dom (heap w)) = None.
Proof. apply not_elem_of_dom, is_fresh. Qed.

Lemma deref_alloc w p i : deref (set_heap (<[p := i]>) w) p = i.
Proof. unfold deref. simpl. by rewrite lookup_insert_eq. Qed.

(** *** The [switch] *)

Lemma switch_Some {A : Type} typ (a b c x : A) :
  switch typ (Some a) (Some b) (Some c) None = Some x → known typ.
Proof.
  unfold switch, known. intros Hx.
  destruct (decide (typ = HLLPP)); [tauto|].
  destruct (decide (typ = TopK)); [tauto|].
  destruct (decide (typ = CML)); [tauto|]. discriminate.
Qed.

Lemma switch_None {A : Type} typ (a b c : A) :
  switch typ (Some a) (Some b) (Some c) None = None → ¬ known typ.
Proof.
  unfold switch, known. intros Hx.
  destruct (decide (typ = HLLPP)); [discriminate|].
  destruct (decide (typ = TopK)); [discriminate|].
  destruct (decide (typ = CML)); [discriminate|]. tauto.
Qed.

(** *** [CreateSketch], case by case *)

(** Where a create that reports success ends. *)
Lemma CreateSketch_success sketchID sketchType props w w1 :
  CreateSketch sketchID sketchType props w = Returned None w1 →
  let id := canonical sketchID sketchType in
  let p := fresh (dom (heap w)) in
  let i := mkInfo id sketchType props ∅ in
  ∃ NewSketch sketch st data,
    switch sketchType (Some hllpp_NewSketch) (Some topk_NewSketch)
           (Some cml_NewSketch) None = Some NewSketch
    ∧ NewSketch i (strg w) = (inl sketch, st)
    ∧ json_Marshal i = inl data
    ∧ info w !! id = None
    ∧ Z.of_nat (String.length id) ≤ MaxKeySize
    ∧ w1 = mkWorld (<[id := Some sketch]> (sketches w)) (<[id := p]> (info w))
                   (<[p := i]> (heap w)) (SaveInfo id data st).1 (logger w).
Proof.
  intros Hc id p i. unfold CreateSketch in Hc. cbv zeta in Hc. fold id in Hc.
  destruct (info w !! id) eqn:Hinfo; [done|].
  destruct (Z.ltb_spec MaxKeySize (Z.of_nat (String.length id))); [done|].
  destruct (decide (sketchType = "")); [done|].
  fold p in Hc. fold i in Hc. rewrite !deref_alloc in Hc.
  destruct (switch sketchType _ _ _ _) as [NewSketch|] eqn:Hsw; [|done].
  simpl in Hc.
  destruct (NewSketch i (strg w)) as [[sketch|err] st] eqn:Hnew; [|done].
  unfold dumpInfo, deref in Hc. simpl in Hc.
  rewrite !lookup_insert_eq in Hc. simpl in Hc.
  destruct (json_Marshal i) as [data|] eqn:Hm; [|done].
  exists NewSketch, sketch, st, data. repeat split; try done.
  simpl in Hc. by injection Hc as <-.
Qed.

(** A registered id is refused at once. *)
Lemma CreateSketch_registered sketchID sketchType props w p :
  info w !! canonical sketchID sketchType = Some p →
  CreateSketch sketchID sketchType props w
  = Returned (Some (DuplicateId (canonical sketchID sketchType)
                                (Typ (deref w p)))) w.
Proof. intros Hp. unfold CreateSketch. by rewrite Hp. Qed.

(** C1: after a create of (name, family) that succeeded, a second create
    of the same pair, whatever its properties, returns the error
    "already exists" and leaves the whole state as it was: the estimator
    of the first create is still in [sketches], its descriptor still in
    [info]. *)
Theorem duplicate_create_rejected sketchID sketchType props props' w w1 :
  CreateSketch sketchID sketchType props w = Returned None w1 →
  let id := canonical sketchID sketchType in
  CreateSketch sketchID sketchType props' w1
  = Returned (Some (DuplicateId id sketchType)) w1
  ∧ (∃ sketch, sketches w1 !! id = Some (Some sketch))
  ∧ (∃ p, info w1 !! id = Some p
          ∧ heap w1 !! p = Some (mkInfo id sketchType props ∅)).
Proof.
  intros Hc id.
  destruct (CreateSketch_success _ _ _ _ _ Hc)
    as (NewSketch & sketch & st & data & _ & _ & _ & _ & _ & ->).
  fold id. split; [|split].
  - erewrite CreateSketch_registered; [|by apply lookup_insert_eq].
    unfold deref. simpl. by rewrite lookup_insert_eq.
  - exists sketch. simpl. apply lookup_insert_eq.
  - eexists. simpl. split; apply lookup_insert_eq.
Qed.


(** C9: a create whose canonical id is longer than [MaxKeySize] returns
    an error and changes nothing, neither the two maps nor the store; the
    error is "invalid length" whenever the id is not already registered,
    so in every state in which the registered ids respect the bound. *)
Theorem oversized_id_rejected sketchID sketchType props w :
  MaxKeySize < Z.of_nat (String.length (canonical sketchID sketchType)) →
  let id := canonical sketchID sketchType in
  (∃ err, CreateSketch sketchID sketchType props w = Returned (Some err) w)
  ∧ (I2 w →
     CreateSketch sketchID sketchType props w
     = Returned (Some (IdTooLong (Z.of_nat (String.length id)) MaxKeySize)) w).
Proof.
  intros Hlen id. fold id in Hlen. unfold CreateSketch. fold id.
  destruct (info w !! id) as [p|] eqn:Hinfo.
  - split; [eauto|]. intros Hb. specialize (Hb _ _ Hinfo). lia.
  - destruct (Z.ltb_spec MaxKeySize (Z.of_nat (String.length id))); [|lia].
    split; [eauto|done].
Qed.

(** The bound on registered ids is kept by [CreateSketch]. *)
Lemma I2_CreateSketch sketchID sketchType props w :
  I2 w → I2 (final (CreateSketch sketchID sketchType props w)).
Proof.
  intros Hb. unfold CreateSketch. cbv zeta.
  set (id := canonical sketchID sketchType).
  destruct (info w !! id) eqn:Hinfo; [done|].
  destruct (Z.ltb_spec MaxKeySize (Z.of_nat (String.length id))); [done|].
  destruct (decide (sketchType = "")); [done|].
  destruct (switch sketchType _ _ _ _) as [NewSketch|]; [|done].
  destruct (NewSketch _ _) as [[sketch|err] st]; [|done].
  unfold dumpInfo, deref. simpl. rewrite !lookup_insert_eq. simpl.
  assert (I2 (mkWorld (<[id := Some sketch]> (sketches w))
                (<[id := fresh (dom (heap w))]> (info w))
                (<[fresh (dom (heap w)) := mkInfo id sketchType props ∅]> (heap w))
                st (logger w))) as Hb'.
  { intros k q. simpl. rewrite lookup_insert.
    case_decide; [intros _; by subst|]. apply Hb. }
  destruct (json_Marshal _); exact Hb'.
Qed.

(** C5, as the code has it: the descriptor is saved only after the
    estimator was built and both maps were written, and what [SaveInfo]
    answers is dropped: when the estimator is built and the descriptor
    can be encoded, create returns success with the sketch in both maps,
    whether the save worked or not; when building fails, the error is
    returned, both maps are as before and nothing was saved. *)
Theorem create_saves_last_and_ignores_the_answer
    sketchID sketchType props w NewSketch :
  let id := canonical sketchID sketchType in
  let p := fresh (dom (heap w)) in
  let i := mkInfo id sketchType props ∅ in
  info w !! id = None →
  Z.of_nat (String.length id) ≤ MaxKeySize →
  sketchType ≠ "" →
  switch sketchType (Some hllpp_NewSketch) (Some topk_NewSketch)
         (Some cml_NewSketch) None = Some NewSketch →
  (∀ sketch st data,
     NewSketch i (strg w) = (inl sketch, st) →
     json_Marshal i = inl data →
     CreateSketch sketchID sketchType props w
     = Returned None
         (mkWorld (<[id := Some sketch]> (sketches w)) (<[id := p]> (info w))
                  (<[p := i]> (heap w)) (SaveInfo id data st).1 (logger w)))
  ∧ (∀ err st,
     NewSketch i (strg w) = (inr err, st) →
     CreateSketch sketchID sketchType props w
     = Returned (Some (FamilyConstructionFailed i err))
         (mkWorld (sketches w) (info w) (<[p := i]> (heap w)) st (logger w))).
Proof.
  intros id p i Hinfo Hlen Hty Hsw.
  unfold CreateSketch. cbv zeta. fold id. rewrite Hinfo.
  destruct (Z.ltb_spec MaxKeySize (Z.of_nat (String.length id))); [lia|].
  destruct (decide (sketchType = "")); [done|].
  fold p. fold i. rewrite Hsw.
  unfold dumpInfo, deref. simpl. rewrite !lookup_insert_eq. simpl.
  split.
  - intros sketch st data -> . simpl. by intros ->.
  - by intros err st ->.
Qed.

(** Where a delete of an id that is in [sketches] ends. *)
Lemma DeleteSketch_registered sketchID sketchType w :
  let id := canonical sketchID sketchType in
  is_Some (sketches w !! id) →
  sketches (final (DeleteSketch sketchID sketchType w)) = delete id (sketches w)
  ∧ info (final (DeleteSketch sketchID sketchType w)) = delete id (info w).
Proof.
  intros id [c Hc]. unfold DeleteSketch. fold id. rewrite Hc. simpl.
  destruct (DeleteInfo id (strg w)) as [st1 [e|]]; [done|].
  by destruct (DeleteData id st1).
Qed.

(** C6: for an id that is in [sketches], delete takes the id out of both
    maps, then calls [DeleteInfo], and calls [DeleteData] only when
    [DeleteInfo] worked; it returns the first error of the two, if any.
    Whatever the store answers, the id is in neither map afterwards. *)
Theorem delete_unregisters_first sketchID sketchType w :
  let id := canonical sketchID sketchType in
  is_Some (sketches w !! id) →
  ∃ err st,
    DeleteSketch sketchID sketchType w
    = Returned err (mkWorld (delete id (sketches w)) (delete id (info w))
                            (heap w) st (logger w))
    ∧ sketches (final (DeleteSketch sketchID sketchType w)) !! id = None
    ∧ info (final (DeleteSketch sketchID sketchType w)) !! id = None
    ∧ match DeleteInfo id (strg w) with
      | (st1, Some e) => err = Some e ∧ st = st1
      | (st1, None) => err = (DeleteData id st1).2 ∧ st = (DeleteData id st1).1
      end.
Proof.
  intros id Hreg.
  destruct (DeleteSketch_registered sketchID sketchType w Hreg) as [Hs Hi].
  fold id in Hs, Hi. rewrite Hs, Hi, !lookup_delete_eq.
  destruct Hreg as [c Hc]. unfold DeleteSketch. fold id. rewrite Hc. simpl.
  destruct (DeleteInfo id (strg w)) as [st1 [e|]].
  - by exists (Some e), st1.
  - destruct (DeleteData id st1) as [st2 err]. by exists err, st2.
Qed.

(** C7: a query on a registered sketch returns the estimator's count when
    its family is cardinality, the frequencies of the given values when it
    is frequency, and what [GetFrequency(nil)] gives when it is top-k, the
    values being ignored; a query on an id that is not in [sketches]
    returns the error "no such sketch".  The state is not changed. *)
Theorem query_dispatches_on_family sketchID sketchType values w :
  let id := canonical sketchID sketchType in
  (sketches w !! id = None →
   GetCountForSketch sketchID sketchType values w
   = Returned (VInt 0, Some (NotFound (no_such_sketch_of_type sketchID sketchType))) w)
  ∧ (∀ counter, sketches w !! id = Some (Some counter) →
     (GetType counter = HLLPP →
      GetCountForSketch sketchID sketchType values w
      = Returned (VCount (GetCount counter), None) w)
     ∧ (GetType counter = CML →
        GetCountForSketch sketchID sketchType values w
        = Returned (VFrequency (GetFrequency (Some (to_bytes values)) counter),
                    None) w)
     ∧ (GetType counter = TopK →
        GetCountForSketch sketchID sketchType values w
        = Returned (VFrequency (GetFrequency None counter), None) w)).
Proof.
  intros id. unfold GetCountForSketch. fold id. split.
  - by intros ->.
  - intros counter ->. repeat split; intros ->; done.
Qed.

(** C10: add returns an error exactly when the canonical id is not in
    [sketches], and the error is then "no such sketch"; on a registered
    estimator it hands the values, the empty list too, to [AddMultiple]
    in one batch and returns no error.  When the estimator treats the
    empty batch as a no-op, so does add. *)
Theorem add_reports_only_missing_sketches sketchID sketchType values w :
  let id := canonical sketchID sketchType in
  (∀ err w',
     AddToSketch sketchID sketchType values w = Returned (Some err) w'
     ↔ sketches w !! id = None
       ∧ err = NotFound (no_such_sketch_of_type sketchID sketchType) ∧ w' = w)
  ∧ (∀ counter, sketches w !! id = Some (Some counter) →
     AddToSketch sketchID sketchType values w
     = Returned None
         (set_sketches
            (<[id := Some (AddMultiple (to_bytes values) counter (strg w)).1]>)
            (set_strg (AddMultiple (to_bytes values) counter (strg w)).2 w))
     ∧ (AddMultiple [] counter (strg w) = (counter, strg w) →
        AddToSketch sketchID sketchType [] w = Returned None w)).
Proof.
  intros id. unfold AddToSketch. fold id. split.
  - intros err w'. destruct (sketches w !! id) as [[counter|]|] eqn:Hs.
    + destruct (AddMultiple _ _ _). split; [done|]. by intros [? _].
    + split; [done|]. by intros [? _].
    + split; [intros [= <- <-]; done|]. by intros (_ & -> & ->).
  - intros counter Hs. rewrite Hs. split.
    + by destruct (AddMultiple _ _ _).
    + intros Hnop. change (to_bytes []) with (@nil (list Byte.byte)).
      rewrite Hnop. f_equal. destruct w. unfold set_sketches, set_strg. simpl.
      f_equal. simpl in Hs. by apply insert_id.
Qed.


(** *** Texts: canonical ids and listing entries *)

Lemma length_app (a b : string) :
  String.length (a +:+ b) = (String.length a + String.length b)%nat.
Proof.
  induction a as [|c a IH]; [done|].
  change (String c a +:+ b) with (String c (a +:+ b)).
  cbn [String.length]. by rewrite IH.
Qed.

Lemma substring_app (a b : string) : substring 0 (String.length a) (a +:+ b) = a.
Proof.
  induction a as [|c a IH]; [by destruct b|].
  change (String c a +:+ b) with (String c (a +:+ b)).
  cbn [String.length substring]. by rewrite IH.
Qed.

Lemma ascii_app (a b : string) :
  list_ascii_of_string (a +:+ b)
  = list_ascii_of_string a ++ list_ascii_of_string b.
Proof.
  induction a as [|c a IH]; [done|].
  change (String c a +:+ b) with (String c (a +:+ b)).
  cbn [list_ascii_of_string]. by rewrite IH.
Qed.

Lemma ascii_inj (a b : string) :
  list_ascii_of_string a = list_ascii_of_string b → a = b.
Proof.
  intros Hab. rewrite <- (string_of_list_ascii_of_string a),
    <- (string_of_list_ascii_of_string b). by rewrite Hab.
Qed.

(** No known tag holds a dot, so a canonical id has one reading. *)
Lemma canonical_inj (a b t f : string) :
  known t → known f → canonical a t = canonical b f → a = b ∧ t = f.
Proof.
  intros Ht Hf Heq. unfold canonical in Heq.
  apply (f_equal list_ascii_of_string) in Heq. rewrite !ascii_app in Heq.
  apply (f_equal (@rev ascii)) in Heq. rewrite !rev_app_distr in Heq.
  assert (rev (list_ascii_of_string a) = rev (list_ascii_of_string b) ∧ t = f)
    as [Hrev Htf].
  { destruct Ht as [->|[->| ->]], Hf as [->|[->| ->]]; cbn in Heq;
      first [discriminate Heq | by simplify_eq]. }
  split; [|done]. apply ascii_inj, rev_inj, Hrev.
Qed.

(** No known tag holds a slash, so an entry of the listing has one
    reading too. *)
Lemma entry_inj (a b t f : string) :
  known t → known f → t +:+ "/" +:+ a = f +:+ "/" +:+ b → a = b ∧ t = f.
Proof.
  intros Ht Hf Heq.
  destruct Ht as [->|[->| ->]], Hf as [->|[->| ->]]; cbv in Heq;
    first [discriminate Heq | by simplify_eq].
Qed.

(** The entry of a live estimator that names a canonical id. *)
Lemma entry_canonical (sk : Sk) (name : string) :
  GetID sk = canonical name (GetType sk) →
  entry (Some sk) = Some (GetType sk +:+ "/" +:+ name).
Proof.
  intros Hid. unfold entry. rewrite Hid. unfold canonical.
  rewrite !length_app. cbn [String.length].
  destruct (Z.ltb_spec (Z.of_nat (String.length name + (1 + String.length (GetType sk)))
                        - Z.of_nat (String.length (GetType sk)) - 1) 0); [lia|].
  replace (Z.to_nat _) with (String.length name) by lia.
  by rewrite substring_app.
Qed.

(** *** Counting entries *)

Lemma mapM_entry (order : list (string * option Sk)) :
  (∀ k c, (k, c) ∈ order →
     ∃ sk name, c = Some sk ∧ GetID sk = k ∧ known (GetType sk)
                ∧ k = canonical name (GetType sk)) →
  ∃ l, mapM (λ kv, entry kv.2) order = Some l ∧ Forall2 shown order l.
Proof.
  induction order as [|[k c] order IH]; intros Hok.
  - exists []. by split; [|constructor].
  - destruct (Hok k c) as (sk & name & -> & Hid & Hkn & Hk); [by left|].
    destruct IH as (l & Hl & Hall).
    { intros k' c' Hin. apply Hok. by right. }
    exists ((GetType sk +:+ "/" +:+ name) :: l). split.
    + cbn -[entry]. rewrite (entry_canonical sk name) by congruence.
      cbn -[entry]. by rewrite Hl.
    + constructor; [|done]. by exists name, (GetType sk).
Qed.

Lemma entries_for_shown (order : list (string * option Sk)) l name f :
  known f → Forall2 shown order l →
  entries_for (f +:+ "/" +:+ name) l
  = length (filter (λ kv, kv.1 = canonical name f) order).
Proof.
  intros Hf Hall. unfold entries_for.
  induction Hall as [|kv s order l (n' & t & Ht & Hk & ->) _ IH]; [done|].
  rewrite !filter_cons.
  destruct (decide (t +:+ "/" +:+ n' = f +:+ "/" +:+ name)) as [Heq|Hne];
    destruct (decide (kv.1 = canonical name f)) as [Heq'|Hne']; cbn;
    rewrite IH; try done.
  - destruct Hne'. apply entry_inj in Heq as [-> ->]; done.
  - destruct Hne. rewrite Hk in Heq'.
    apply canonical_inj in Heq' as [-> ->]; done.
Qed.

Lemma count_key {V : Type} (l : list (string * V)) (k : string) :
  NoDup (l.*1) →
  length (filter (λ kv, kv.1 = k) l) = if decide (k ∈ l.*1) then 1%nat else 0%nat.
Proof.
  induction l as [|[k' v] l IH]; [done|].
  cbn [fmap list_fmap fst]. rewrite NoDup_cons. intros [Hk' Hnd].
  rewrite filter_cons. cbn [fst]. specialize (IH Hnd).
  destruct (decide (k' = k)) as [->|Hne]; cbn [length]; rewrite IH;
    destruct (decide (k ∈ l.*1)) as [Hin|Hnin];
    destruct (decide (k ∈ _ :: l.*1)) as [Hin'|Hnin']; try done.
  - destruct Hnin'. by left.
  - destruct Hnin'. by right.
  - apply elem_of_cons in Hin' as [->|Hin']; done.
Qed.

Lemma count_binding {V : Type} (m : gmap string V) (k : string) :
  length (filter (λ kv, kv.1 = k) (range_order m))
  = match m !! k with Some _ => 1%nat | None => 0%nat end.
Proof.
  rewrite (range_order_perm V m).
  rewrite count_key by apply NoDup_fst_map_to_list.
  destruct (decide (k ∈ (map_to_list m).*1)) as [Hin|Hnin];
    destruct (m !! k) as [v|] eqn:Hk; try done.
  - apply list_elem_of_fmap in Hin as ([k' v] & -> & Hin).
    apply elem_of_map_to_list in Hin. cbn in Hk. congruence.
  - destruct Hnin. apply list_elem_of_fmap. exists (k, v).
    by rewrite elem_of_map_to_list.
Qed.

(** The listing of a catalog that is in order. *)
Lemma GetSketches_catalog_ok w name f :
  catalog_ok w → known f →
  ∃ l, GetSketches w = Returned (l, None) w
       ∧ length l = size (sketches w)
       ∧ entries_for (f +:+ "/" +:+ name) l
         = match sketches w !! canonical name f with
           | Some _ => 1%nat
           | None => 0%nat
           end.
Proof.
  intros Hok Hf. unfold GetSketches.
  destruct (mapM_entry (range_order (sketches w))) as (l & -> & Hall).
  { intros k c Hin. apply (Hok k c).
    rewrite (range_order_perm _ (sketches w)) in Hin.
    by apply elem_of_map_to_list in Hin. }
  exists l. split; [done|]. split.
  - rewrite <- (Forall2_length _ _ _ Hall), (range_order_perm _ (sketches w)).
    apply length_map_to_list.
  - rewrite (entries_for_shown _ _ _ _ Hf Hall). apply count_binding.
Qed.

(** *** The catalog stays in order *)

Section Listing.

Context {ids : IdentityAccessors}.

Lemma catalog_ok_same w w' :
  sketches w' = sketches w → catalog_ok w → catalog_ok w'.
Proof. unfold catalog_ok. by intros ->. Qed.

Lemma catalog_ok_insert w w' k sk name :
  sketches w' = <[k := Some sk]> (sketches w) →
  GetID sk = k → known (GetType sk) → k = canonical name (GetType sk) →
  catalog_ok w → catalog_ok w'.
Proof.
  intros Hs Hid Hkn Hk Hok k' c. rewrite Hs, lookup_insert.
  case_decide; [|by apply Hok].
  intros [= <-]. subst k'. by exists sk, name.
Qed.

Lemma NewSketch_identity typ NewSketch i st sk st' :
  switch typ (Some hllpp_NewSketch) (Some topk_NewSketch)
         (Some cml_NewSketch) None = Some NewSketch →
  NewSketch i st = (inl sk, st') → GetID sk = ID i ∧ GetType sk = Typ i.
Proof.
  unfold switch. intros Hsw Hnew.
  destruct (decide (typ = HLLPP));
    [injection Hsw as <-; by eapply hllpp_identity|].
  destruct (decide (typ = TopK));
    [injection Hsw as <-; by eapply topk_identity|].
  destruct (decide (typ = CML));
    [injection Hsw as <-; by eapply cml_identity|]. discriminate.
Qed.

Lemma catalog_ok_CreateSketch sketchID sketchType props w :
  catalog_ok w → catalog_ok (final (CreateSketch sketchID sketchType props w)).
Proof.
  intros Hok. unfold CreateSketch. cbv zeta.
  set (id := canonical sketchID sketchType).
  destruct (info w !! id) eqn:Hinfo; [done|].
  destruct (Z.ltb_spec MaxKeySize (Z.of_nat (String.length id))); [done|].
  destruct (decide (sketchType = "")); [done|].
  destruct (switch sketchType _ _ _ _) as [NewSketch|] eqn:Hsw; [|done].
  destruct (NewSketch _ _) as [[sketch|err] st] eqn:Hnew; [|done].
  destruct (NewSketch_identity _ _ _ _ _ _ Hsw Hnew) as [Hid Hty].
  unfold deref in Hid, Hty. cbn in Hid, Hty.
  rewrite lookup_insert_eq in Hid, Hty. cbn in Hid, Hty.
  unfold dumpInfo, deref. cbn. rewrite !lookup_insert_eq. cbn.
  eapply (catalog_ok_insert w _ id sketch sketchID); last done.
  - by destruct (json_Marshal _).
  - done.
  - rewrite Hty. by eapply switch_Some.
  - by rewrite Hty.
Qed.

Lemma catalog_ok_DeleteSketch sketchID sketchType w :
  catalog_ok w → catalog_ok (final (DeleteSketch sketchID sketchType w)).
Proof.
  intros Hok. unfold DeleteSketch.
  set (id := canonical sketchID sketchType).
  destruct (sketches w !! id); [|done].
  assert (∀ w', sketches w' = delete id (sketches w) → catalog_ok w') as Hdel.
  { intros w' Hs k c. rewrite Hs, lookup_delete.
    case_decide; [done|]. apply Hok. }
  destruct (DeleteInfo _ _) as [st1 [e|]]; [by apply Hdel|].
  destruct (DeleteData _ _). by apply Hdel.
Qed.

Lemma catalog_ok_AddToSketch sketchID sketchType values w :
  catalog_ok w → catalog_ok (final (AddToSketch sketchID sketchType values w)).
Proof.
  intros Hok. unfold AddToSketch.
  set (id := canonical sketchID sketchType).
  destruct (sketches w !! id) as [[counter|]|] eqn:Hs; [|done..].
  destruct (Hok _ _ Hs) as (sk & name & Hsk & Hid & Hkn & Hk).
  assert (sk = counter) as -> by congruence.
  destruct (add_identity (to_bytes values) counter (strg w)) as [Hid' Hty'].
  destruct (AddMultiple _ _ _) as [counter' st]. cbn in Hid', Hty'.
  eapply (catalog_ok_insert w _ id counter' name); last done.
  - done.
  - congruence.
  - by rewrite Hty'.
  - by rewrite Hty'.
Qed.

Lemma catalog_ok_DeleteFromSketch sketchID sketchType values w :
  catalog_ok w →
  catalog_ok (final (DeleteFromSketch sketchID sketchType values w)).
Proof.
  intros Hok. unfold DeleteFromSketch.
  destruct (sketches w !! sketchID) as [[counter|]|] eqn:Hs; [|done..].
  destruct (Hok _ _ Hs) as (sk & name & Hsk & Hid & Hkn & Hk).
  assert (sk = counter) as -> by congruence.
  destruct (remove_identity (to_bytes values) counter (strg w)) as [Hid' Hty'].
  destruct (RemoveMultiple _ _ _) as [[counter' st] err]. cbn in Hid', Hty'.
  eapply (catalog_ok_insert w _ sketchID counter' name); last done.
  - done.
  - congruence.
  - by rewrite Hty'.
  - by rewrite Hty'.
Qed.

Lemma catalog_ok_reachable w : reachable w → catalog_ok w.
Proof.
  intros (w0 & Hempty & Hsteps).
  assert (catalog_ok w0) as Hok0.
  { intros k c. by rewrite Hempty, lookup_empty. }
  clear Hempty. induction Hsteps as [w0|w0 w1 w2 Hstep _ IH]; [done|].
  apply IH. destruct Hstep;
    auto using catalog_ok_CreateSketch, catalog_ok_DeleteSketch,
               catalog_ok_AddToSketch, catalog_ok_DeleteFromSketch.
Qed.

(** C8: in every state that calls of the manager lead to from an empty
    catalog, the listing has one entry for each binding of [sketches], and
    a sketch that is registered under the canonical id of (name, family),
    family being one of the three tags, has exactly one entry in it, the
    text "family/name"; once it is deleted, the listing has no such
    entry. *)
Theorem listing_has_one_entry_per_sketch w name family :
  reachable w → known family →
  is_Some (sketches w !! canonical name family) →
  (∃ l, GetSketches w = Returned (l, None) w
        ∧ length l = size (sketches w)
        ∧ entries_for (family +:+ "/" +:+ name) l = 1%nat)
  ∧ (∃ l, GetSketches (final (DeleteSketch name family w))
          = Returned (l, None) (final (DeleteSketch name family w))
          ∧ entries_for (family +:+ "/" +:+ name) l = 0%nat).
Proof.
  intros Hreach Hkn Hreg. pose proof (catalog_ok_reachable w Hreach) as Hok.
  split.
  - destruct (GetSketches_catalog_ok w name family Hok Hkn)
      as (l & Hl & Hlen & Hn).
    exists l. split_and!; [done..|]. rewrite Hn. by destruct Hreg as [c ->].
  - pose proof (catalog_ok_DeleteSketch name family w Hok) as Hok'.
    destruct (GetSketches_catalog_ok _ name family Hok' Hkn)
      as (l & Hl & _ & Hn).
    exists l. split; [done|]. rewrite Hn.
    destruct (DeleteSketch_registered name family w Hreg) as [-> _].
    by rewrite lookup_delete_eq.
Qed.

End Listing.

(** *** Rehydration *)

(** [loadInfo] has one struct, [infoStruct], and stores its address under
    every id it reads: when the manager starts with an empty [info], all
    ids end up bound to that one pointer. *)
Lemma loadInfo_turns_one_pointer p (infos : list (string * Bytes)) w :
  (∀ id q, info w !! id = Some q → q = p) →
  ∀ id q, info (foldl (λ w kv, loadInfo_turn p w kv.2) w infos) !! id = Some q
          → q = p.
Proof.
  revert w. induction infos as [|[k data] infos IH]; intros w Hw; [done|].
  cbn [foldl]. apply IH. intros id q. unfold loadInfo_turn. cbn.
  rewrite lookup_insert. case_decide; [congruence|apply Hw].
Qed.

Lemma loadInfo_one_pointer w id1 id2 p1 p2 :
  info w = ∅ →
  info (final (loadInfo w)) !! id1 = Some p1 →
  info (final (loadInfo w)) !! id2 = Some p2 →
  p1 = p2.
Proof.
  intros Hempty. unfold loadInfo. cbv zeta.
  destruct (LoadAllInfo _) as [infos|err]; cbn [final].
  - intros H1 H2.
    eapply loadInfo_turns_one_pointer in H1, H2; [congruence|..];
      intros id q; cbn; by rewrite Hempty, lookup_empty.
  - cbn. by rewrite Hempty, lookup_empty.
Qed.

(** One turn of [loadSketches] on a descriptor whose tag is not known: a
    line is logged, [nil] is stored under the id, and the loop goes on. *)
Lemma loadSketches_unknown_tag key p entries w :
  ¬ known (Typ (deref w p)) →
  loadSketches_range ((key, p) :: entries) w
  = loadSketches_range entries
      (mkWorld (<[ID (deref w p) := None]> (sketches w)) (info w) (heap w)
               (LoadData key 0 0 (strg w))
               (logger w ++ ["Invalid counter type " +:+ Typ (deref w p)])).
Proof.
  intros Hunk. cbn [loadSketches_range].
  destruct (switch (Typ (deref w p)) _ _ _ _) as [new|] eqn:Hsw; [|done].
  destruct Hunk. by eapply switch_Some.
Qed.

(** [DeleteFromSketch] looks [sketchID] up as it is given: a name under
    which nothing is stored is not found, whatever is registered under
    the canonical id. *)
Lemma DeleteFromSketch_by_name sketchID sketchType values w :
  sketches w !! sketchID = None →
  DeleteFromSketch sketchID sketchType values w
  = Returned (Some (NotFound (no_such_sketch_colon sketchID))) w.
Proof. intros Hs. unfold DeleteFromSketch. by rewrite Hs. Qed.

End Properties.

(** ** The manager on concrete inputs *)

Import Mem.

(** [Tally] keeps the contract of the identity accessors. *)
Lemma tally_identity : IdentityAccessors (Sk := Tally).
Proof.
  split.
  - by intros i st sk st' [= <- _].
  - by intros i st sk st' [= <- _].
  - by intros i st sk st' [= <- _].
  - done.
  - intros values sk st. cbn. unfold tally_Remove. by case_decide.
Qed.

Lemma info_marvel : info marvel = {[ "marvel.cardinality" := 1%positive ]}.
Proof. vm_compute. reflexivity. Qed.

Lemma I2_marvel : I2 marvel.
Proof.
  intros id p. rewrite info_marvel. intros [<- _]%lookup_singleton_Some.
  vm_compute. discriminate.
Qed.

Lemma reachable_both : reachable both.
Proof.
  exists (boot false). split; [done|]. unfold both, marvel_fed, marvel.
  eapply rtc_l; [apply (step_create "marvel" "cardinality" capacity)|].
  eapply rtc_l;
    [apply (step_add "marvel" "cardinality" ["magneto"; "wasp"; "beast"])|].
  eapply rtc_l; [apply (step_create "x-force" "frequency" capacity)|].
  eapply rtc_l;
    [apply (step_add "x-force" "frequency"
              ["magneto"; "wasp"; "beast"; "magneto"])|].
  apply rtc_refl.
Qed.

(** C1 at work: "marvel" is created on a fresh process, then created
    again with other properties. *)
Lemma duplicate_create_rejected_witness :
  CreateSketch "marvel" "cardinality" capacity (boot false) = Returned None marvel
  ∧ CreateSketch "marvel" "cardinality" ∅ marvel
    = Returned (Some (DuplicateId "marvel.cardinality" "cardinality")) marvel
  ∧ (∃ sketch, sketches marvel !! "marvel.cardinality" = Some (Some sketch))
  ∧ (∃ p, info marvel !! "marvel.cardinality" = Some p
          ∧ heap marvel !! p
            = Some (mkInfo "marvel.cardinality" "cardinality" capacity ∅)).
Proof.
  assert (CreateSketch "marvel" "cardinality" capacity (boot false)
          = Returned None marvel) as Hfirst by (vm_compute; reflexivity).
  split; [exact Hfirst|].
  exact (duplicate_create_rejected "marvel" "cardinality" capacity ∅
           (boot false) marvel Hfirst).
Defined.

(** C9 at work: a name of 70 bytes, with keys of at most 64. *)
Lemma oversized_id_rejected_witness :
  let name :=
    "0123456789012345678901234567890123456789012345678901234567890123456789" in
  MaxKeySize < Z.of_nat (String.length (canonical name "cardinality"))
  ∧ I2 marvel
  ∧ CreateSketch name "cardinality" capacity marvel
    = Returned (Some (IdTooLong 82 64)) marvel.
Proof.
  intros name.
  assert (MaxKeySize < Z.of_nat (String.length (canonical name "cardinality")))
    as Hlen by (vm_compute; reflexivity).
  split; [exact Hlen|]. split; [exact I2_marvel|].
  exact (proj2 (oversized_id_rejected name "cardinality" capacity marvel Hlen)
           I2_marvel).
Defined.

(** C5: the store refuses the descriptor, and create returns success all
    the same, with the sketch in both maps and no descriptor stored. *)
Lemma create_keeps_entry_when_save_fails :
  let id := canonical "marvel" "cardinality" in
  let w' := final (CreateSketch "marvel" "cardinality" capacity (boot true)) in
  (∀ data, (SaveInfo id data (strg (boot true))).2 = Some write_failed)
  ∧ CreateSketch "marvel" "cardinality" capacity (boot true) = Returned None w'
  ∧ is_Some (sketches w' !! id)
  ∧ is_Some (info w' !! id)
  ∧ infoDB (strg w') !! id = None.
Proof.
  intros id w'. split; [done|]. split; [by vm_compute|].
  split; [|split]; vm_compute; eauto.
Qed.

(** C5, as the code has it, at work on the store that refuses writes. *)
Lemma create_saves_last_witness :
  let id := canonical "marvel" "cardinality" in
  let i := mkInfo id "cardinality" capacity ∅ in
  (info (boot true) !! id = None
   ∧ Z.of_nat (String.length id) ≤ MaxKeySize
   ∧ "cardinality" ≠ ""
   ∧ switch "cardinality" (Some hllpp_NewSketch) (Some topk_NewSketch)
            (Some cml_NewSketch) None = Some tally_New)
  ∧ (∀ sketch st data,
       tally_New i (strg (boot true)) = (inl sketch, st) →
       json_Marshal i = inl data →
       CreateSketch "marvel" "cardinality" capacity (boot true)
       = Returned None
           (mkWorld (<[id := Some sketch]> ∅) (<[id := 1%positive]> ∅)
                    (<[1%positive := i]> ∅) (SaveInfo id data st).1 [])).
Proof.
  intros id i.
  assert (info (boot true) !! id = None) as H1 by done.
  assert (Z.of_nat (String.length id) ≤ MaxKeySize) as H2
    by (vm_compute; discriminate).
  assert ("cardinality" ≠ "") as H3 by done.
  assert (switch "cardinality" (Some hllpp_NewSketch) (Some topk_NewSketch)
            (Some cml_NewSketch) None = Some tally_New) as H4 by done.
  split; [done|].
  exact (proj1 (create_saves_last_and_ignores_the_answer
                  "marvel" "cardinality" capacity (boot true) tally_New
                  H1 H2 H3 H4)).
Defined.

(** C6 at work: "marvel" is deleted, on a store that works and on one
    that has stopped taking writes. *)
Lemma delete_unregisters_first_witness :
  let id := canonical "marvel" "cardinality" in
  let w := set_strg (mkStore (infoDB (strg marvel_fed))
                             (dataDB (strg marvel_fed)) true) marvel_fed in
  is_Some (sketches w !! id)
  ∧ ∃ err st,
      DeleteSketch "marvel" "cardinality" w
      = Returned err (mkWorld (delete id (sketches w)) (delete id (info w))
                              (heap w) st (logger w))
      ∧ sketches (final (DeleteSketch "marvel" "cardinality" w)) !! id = None
      ∧ info (final (DeleteSketch "marvel" "cardinality" w)) !! id = None
      ∧ match DeleteInfo id (strg w) with
        | (st1, Some e) => err = Some e ∧ st = st1
        | (st1, None) => err = (DeleteData id st1).2 ∧ st = (DeleteData id st1).1
        end.
Proof.
  intros id w.
  assert (is_Some (sketches w !! id)) as Hreg by (vm_compute; eauto).
  split; [exact Hreg|].
  exact (delete_unregisters_first "marvel" "cardinality" w Hreg).
Defined.

(** C8 at work: two sketches, each listed once; "x-force" is gone from
    the listing once it is deleted. *)
Lemma listing_witness :
  (reachable both ∧ known "frequency"
   ∧ is_Some (sketches both !! canonical "x-force" "frequency"))
  ∧ (∃ l, GetSketches both = Returned (l, None) both
          ∧ length l = size (sketches both)
          ∧ entries_for "frequency/x-force" l = 1%nat)
  ∧ (∃ l, GetSketches (final (DeleteSketch "x-force" "frequency" both))
          = Returned (l, None) (final (DeleteSketch "x-force" "frequency" both))
          ∧ entries_for "frequency/x-force" l = 0%nat).
Proof.
  assert (known "frequency") as Hkn by (right; right; reflexivity).
  assert (is_Some (sketches both !! canonical "x-force" "frequency")) as Hreg
    by (vm_compute; eauto).
  split; [split_and!; [exact reachable_both|exact Hkn|exact Hreg]|].
  exact (listing_has_one_entry_per_sketch (ids := tally_identity)
           both "x-force" "frequency" reachable_both Hkn Hreg).
Defined.

(** C2: two sketches are stored, the process starts again.  [loadInfo]
    binds both ids to one struct, which holds the descriptor read last;
    what is stored under "marvel.cardinality" decodes to another
    descriptor.  [loadSketches] then builds the estimator of
    "x-force.frequency" twice and none for "marvel.cardinality". *)
Theorem rehydration_binds_ids_to_one_struct :
  let w := final (loadInfo (restart both)) in
  let xforce := mkInfo "x-force.frequency" "frequency" capacity ∅ in
  LoadAllInfo (strg (restart both))
  = inl [("marvel.cardinality", Object (mkJson (Some "marvel.cardinality")
            (Some "cardinality") (Some capacity) (Some ∅)));
         ("x-force.frequency", Object (mkJson (Some "x-force.frequency")
            (Some "frequency") (Some capacity) (Some ∅)))]
  ∧ json_Unmarshal (Object (mkJson (Some "marvel.cardinality")
       (Some "cardinality") (Some capacity) (Some ∅))) zero
    = mkInfo "marvel.cardinality" "cardinality" capacity ∅
  ∧ info w !! "marvel.cardinality" = Some 1%positive
  ∧ info w !! "x-force.frequency" = Some 1%positive
  ∧ heap w !! 1%positive = Some xforce
  ∧ deref w 1%positive ≠ mkInfo "marvel.cardinality" "cardinality" capacity ∅
  ∧ newManager (restart both) = Returned None (final (newManager (restart both)))
  ∧ sketches (final (newManager (restart both))) !! "marvel.cardinality" = None.
Proof.
  intros w xforce. split_and!; try (vm_compute; reflexivity).
  vm_compute. discriminate.
Qed.

(** C3: the info store holds a descriptor of the family "bloom".
    Rehydration returns no error, logs the tag and stores [nil] under the
    id: the id is in [sketches], and listing or feeding it panics. *)
Theorem unknown_tag_is_registered_as_nil :
  let w := final (newManager stale) in
  newManager stale = Returned None w
  ∧ sketches w !! "old.bloom" = Some None
  ∧ logger w = ["Invalid counter type bloom"]
  ∧ GetSketches w = Panicked w
  ∧ AddToSketch "old" "bloom" [] w = Panicked w.
Proof. intros w. split_and!; vm_compute; reflexivity. Qed.

(** C4: "x-force" is registered as a frequency sketch.  Removing values
    from ("x-force", "frequency") is answered "no such sketch", where
    adding to and querying the same pair reach the estimator. *)
Theorem remove_misses_registered_sketch :
  (∃ counter,
     sketches both !! canonical "x-force" "frequency" = Some (Some counter)
     ∧ GetType counter = CML)
  ∧ DeleteFromSketch "x-force" "frequency" ["magneto"] both
    = Returned (Some (NotFound "No such sketch: x-force")) both
  ∧ (∃ w', AddToSketch "x-force" "frequency" ["magneto"] both = Returned None w')
  ∧ (∃ r, GetCountForSketch "x-force" "frequency" ["magneto"] both
          = Returned (VFrequency r, None) both).
Proof.
  split; [|split; [|split]].
  - eexists. split; vm_compute; reflexivity.
  - vm_compute. reflexivity.
  - eexists. vm_compute. reflexivity.
  - eexists. vm_compute. reflexivity.
Qed.

(** ** Further properties of the manager *)

Section More.

Context {Bytes Store Sk Res : Type}.
Context {cfg : Config} {rt : GoRuntime} {js : Json Bytes}
        {sto : Storage Bytes Store} {cnt : Counter Sk Store Res}
        {wrp : Wrappers Sk Store}.

Local Abbreviation World := (World Sk Store).
Local Abbreviation Process := (Process Sk Store).

Implicit Types (w : World) (pr : Process) (sketchID sketchType : string).

(** *** Canonical ids and entries *)

(** For the three family tags a canonical id is the id of one pair only:
    two pairs (name, family) share their canonical id exactly when they
    are the same pair. *)
Theorem canonical_id_of_one_pair (a b t f : string) :
  known t → known f → (canonical a t = canonical b f ↔ a = b ∧ t = f).
Proof.
  intros Ht Hf. split.
  - by apply canonical_inj.
  - by intros [-> ->].
Qed.

(** With a tag that holds a dot the reading is lost: ("a.b", "c") and
    ("a", "b.c") have one canonical id. *)
Lemma canonical_dot_clash : canonical "a.b" "c" = canonical "a" "b.c".
Proof. reflexivity. Qed.

(** The turn of [GetSketches] on a live estimator cuts [len(typ)+1] bytes
    off the end of the id: it gives "typ/name" for every name, one with
    dots or slashes too, when the id is "name.typ"; and it panics exactly
    when the id is not longer than the type. *)
Theorem entry_cuts_the_suffix (sk : Sk) :
  (∀ name, GetID sk = canonical name (GetType sk) →
     entry (Some sk) = Some (GetType sk +:+ "/" +:+ name))
  ∧ (entry (Some sk) = None
     ↔ (String.length (GetID sk) ≤ String.length (GetType sk))%nat).
Proof.
  split; [apply entry_canonical|].
  unfold entry.
  destruct (Z.ltb_spec (Z.of_nat (String.length (GetID sk))
                        - Z.of_nat (String.length (GetType sk)) - 1) 0).
  - split; [lia|done].
  - split; [done|lia].
Qed.

(** [GetSketches] panics exactly when some binding of [sketches] is [nil]
    or has an id too short for its type; when it returns, the error is
    [nil], the state is as before and there is one entry for each
    binding. *)
Theorem GetSketches_panics_on_a_bad_binding w :
  (GetSketches w = Panicked w
   ↔ ∃ k c, sketches w !! k = Some c ∧ entry c = None)
  ∧ (∀ l err w', GetSketches w = Returned (l, err) w' →
       err = None ∧ w' = w ∧ length l = size (sketches w)).
Proof.
  unfold GetSketches.
  destruct (mapM _ (range_order (sketches w))) as [l|] eqn:Hm.
  - split.
    + split; [done|]. intros (k & c & Hk & Hc).
      assert (is_Some (mapM (λ kv : string * option Sk, entry kv.2)
                (range_order (sketches w)))) as Hsome by eauto.
      apply mapM_is_Some_1 in Hsome. rewrite Forall_forall in Hsome.
      destruct (Hsome (k, c)) as [s Hs].
      * rewrite (range_order_perm _ (sketches w)).
        by apply elem_of_map_to_list.
      * cbn in Hs. congruence.
    + intros l' err w' [= <- <- <-]. split_and!; [done..|].
      rewrite <- (length_mapM _ _ _ Hm), (range_order_perm _ (sketches w)).
      apply length_map_to_list.
  - split; [|done]. split; [|done]. intros _.
    apply mapM_None_1, Exists_exists in Hm as ([k c] & Hin & Hc).
    exists k, c. split; [|done].
    rewrite (range_order_perm _ (sketches w)) in Hin.
    by apply elem_of_map_to_list in Hin.
Qed.

(** *** [CreateSketch]: errors and panics *)

(** A create that returns an error has registered nothing: both maps are
    as before and no struct that was allocated has changed.  The error is
    one of five, and unless it is the error of the family's constructor
    the store has not been touched. *)
Theorem create_error_registers_nothing sketchID sketchType props w err w' :
  CreateSketch sketchID sketchType props w = Returned (Some err) w' →
  sketches w' = sketches w
  ∧ info w' = info w
  ∧ (∀ p i, heap w !! p = Some i → heap w' !! p = Some i)
  ∧ ((∃ typ, err = DuplicateId (canonical sketchID sketchType) typ)
     ∨ (∃ len, err = IdTooLong len MaxKeySize)
     ∨ err = MissingFamily
     ∨ err = UnknownFamily sketchType
     ∨ (∃ i e, err = FamilyConstructionFailed i e))
  ∧ ((∀ i e, err ≠ FamilyConstructionFailed i e) → strg w' = strg w).
Proof.
  unfold CreateSketch. cbv zeta. set (id := canonical sketchID sketchType).
  assert (∀ i q j, heap w !! q = Some j →
            <[fresh (dom (heap w)) := i]> (heap w) !! q = Some j) as Hkeep.
  { intros i q j Hq. rewrite lookup_insert_ne; [done|].
    intros <-. by rewrite fresh_unallocated in Hq. }
  destruct (info w !! id) eqn:Hinfo.
  { intros [= <- <-]. split_and!; eauto. }
  destruct (Z.ltb_spec MaxKeySize (Z.of_nat (String.length id))).
  { intros [= <- <-]. split_and!; eauto 6. }
  destruct (decide (sketchType = "")).
  { intros [= <- <-]. split_and!; eauto 6. }
  destruct (switch sketchType _ _ _ _) as [NewSketch|].
  2:{ intros [= <- <-]. split_and!; cbn; eauto 8. }
  destruct (NewSketch _ _) as [[sketch|e] st].
  - destruct (dumpInfo _ _); [|done]. done.
  - intros [= <- <-]. split_and!; cbn; eauto 10.
    intros Hno. by destruct (Hno _ _ eq_refl).
Qed.

(** The checks of create come in one order: a registered id is a
    duplicate whatever else is wrong; then an id that is too long is
    refused before the type is looked at; then the empty type; then a
    type that is none of the three tags. *)
Theorem create_checks_in_order sketchID sketchType props w :
  let id := canonical sketchID sketchType in
  (∀ p, info w !! id = Some p →
     CreateSketch sketchID sketchType props w
     = Returned (Some (DuplicateId id (Typ (deref w p)))) w)
  ∧ (info w !! id = None →
     (MaxKeySize < Z.of_nat (String.length id) →
      CreateSketch sketchID sketchType props w
      = Returned (Some (IdTooLong (Z.of_nat (String.length id)) MaxKeySize)) w)
     ∧ (Z.of_nat (String.length id) ≤ MaxKeySize →
        (sketchType = "" →
         CreateSketch sketchID sketchType props w
         = Returned (Some MissingFamily)
             (Println "SketchType is mandatory and must be set!" w))
        ∧ (sketchType ≠ "" → ¬ known sketchType →
           CreateSketch sketchID sketchType props w
           = Returned (Some (UnknownFamily sketchType))
               (set_heap (<[fresh (dom (heap w))
                            := mkInfo id sketchType props ∅]>) w)))).
Proof.
  intros id. unfold CreateSketch. cbv zeta. fold id. split.
  - by intros p ->.
  - intros ->. split.
    + intros Hlen.
      by destruct (Z.ltb_spec MaxKeySize (Z.of_nat (String.length id))); [|lia].
    + intros Hlen.
      destruct (Z.ltb_spec MaxKeySize (Z.of_nat (String.length id))); [lia|].
      split.
      * intros ->. done.
      * intros Hne Hunk. destruct (decide (sketchType = "")); [done|].
        destruct (switch sketchType _ _ _ _) eqn:Hsw; [|done].
        destruct Hunk. by eapply switch_Some.
Qed.

(** When the estimator is built and [json.Marshal] refuses the
    descriptor, create panics after it has written both maps and before
    it saves anything: the sketch is registered in memory only, and a
    later create of the pair is refused as a duplicate. *)
Theorem create_panics_half_way sketchID sketchType props w NewSketch sketch st e :
  let id := canonical sketchID sketchType in
  let p := fresh (dom (heap w)) in
  let i := mkInfo id sketchType props ∅ in
  let w' := mkWorld (<[id := Some sketch]> (sketches w)) (<[id := p]> (info w))
                    (<[p := i]> (heap w)) st (logger w) in
  info w !! id = None →
  Z.of_nat (String.length id) ≤ MaxKeySize →
  sketchType ≠ "" →
  switch sketchType (Some hllpp_NewSketch) (Some topk_NewSketch)
         (Some cml_NewSketch) None = Some NewSketch →
  NewSketch i (strg w) = (inl sketch, st) →
  json_Marshal i = inr e →
  CreateSketch sketchID sketchType props w = Panicked w'
  ∧ ∀ props', CreateSketch sketchID sketchType props' w'
              = Returned (Some (DuplicateId id sketchType)) w'.
Proof.
  intros id p i w' Hinfo Hlen Hty Hsw Hnew Hm. split.
  - unfold CreateSketch. cbv zeta. fold id. rewrite Hinfo.
    destruct (Z.ltb_spec MaxKeySize (Z.of_nat (String.length id))); [lia|].
    destruct (decide (sketchType = "")); [done|].
    fold p. fold i. rewrite Hsw.
    unfold dumpInfo, deref. simpl. rewrite !lookup_insert_eq. simpl.
    rewrite Hnew. simpl. rewrite ?lookup_insert_eq. simpl. by rewrite Hm.
  - intros props'. unfold CreateSketch. fold id. unfold w' at 1. simpl.
    rewrite lookup_insert_eq. unfold deref, w'. simpl.
    by rewrite lookup_insert_eq.
Qed.


(** *** How the operations compose *)

(** A sketch can be used as soon as its create has returned success: add
    on the pair returns no error, and so does a query. *)
Theorem created_sketch_is_usable sketchID sketchType props values w w1 :
  CreateSketch sketchID sketchType props w = Returned None w1 →
  (∃ w2, AddToSketch sketchID sketchType values w1 = Returned None w2)
  ∧ (∃ r, GetCountForSketch sketchID sketchType values w1
          = Returned (r, None) w1).
Proof.
  intros Hc.
  destruct (CreateSketch_success _ _ _ _ _ Hc)
    as (NewSketch & sketch & st & data & _ & _ & _ & _ & _ & ->).
  split.
  - unfold AddToSketch. cbn. rewrite lookup_insert_eq.
    destruct (AddMultiple _ _ _). eauto.
  - unfold GetCountForSketch. cbn. rewrite lookup_insert_eq.
    destruct (decide (GetType sketch = CML)); [eauto|].
    destruct (decide (GetType sketch = TopK)); eauto.
Qed.

(** Create, then delete: when the id was in neither map before, both maps
    are again what they were, whatever the store answers. *)
Theorem create_then_delete_restores_the_maps sketchID sketchType props w w1 :
  CreateSketch sketchID sketchType props w = Returned None w1 →
  sketches w !! canonical sketchID sketchType = None →
  sketches (final (DeleteSketch sketchID sketchType w1)) = sketches w
  ∧ info (final (DeleteSketch sketchID sketchType w1)) = info w.
Proof.
  intros Hc Hs.
  destruct (CreateSketch_success _ _ _ _ _ Hc)
    as (NewSketch & sketch & st & data & _ & _ & _ & Hi & _ & ->).
  destruct (DeleteSketch_registered sketchID sketchType
              (mkWorld (<[canonical sketchID sketchType := Some sketch]> (sketches w))
                 (<[canonical sketchID sketchType := fresh (dom (heap w))]> (info w))
                 (<[fresh (dom (heap w))
                    := mkInfo (canonical sketchID sketchType) sketchType props ∅]>
                    (heap w))
                 (SaveInfo (canonical sketchID sketchType) data st).1 (logger w)))
    as [-> ->].
  { cbn. rewrite lookup_insert_eq. eauto. }
  cbn. by rewrite !delete_insert_id.
Qed.

(** Delete of an id that is not in [sketches] returns "no such sketch"
    and changes nothing, the store included.  Any delete leaves the other
    ids of both maps, the structs and the log as they are. *)
Theorem delete_touches_one_id sketchID sketchType w :
  let id := canonical sketchID sketchType in
  let w' := final (DeleteSketch sketchID sketchType w) in
  (sketches w !! id = None →
   DeleteSketch sketchID sketchType w
   = Returned (Some (NotFound (no_such_sketch sketchID))) w)
  ∧ (∀ k, k ≠ id →
       sketches w' !! k = sketches w !! k ∧ info w' !! k = info w !! k)
  ∧ heap w' = heap w
  ∧ logger w' = logger w.
Proof.
  intros id w'. unfold w', DeleteSketch. fold id.
  destruct (sketches w !! id) as [c|] eqn:Hs.
  - split; [done|].
    destruct (DeleteInfo id _) as [st1 [e|]]; [|destruct (DeleteData id st1)];
      cbn; split_and!; try done; intros k Hk; by rewrite !lookup_delete_ne.
  - by split_and!.
Qed.

(** An id that is in [info] and not in [sketches] is stuck: create
    refuses it as a duplicate, delete, add and query do not find it, and
    none of them changes the state. *)
Theorem id_in_info_only_is_stuck sketchID sketchType props values w p :
  let id := canonical sketchID sketchType in
  info w !! id = Some p →
  sketches w !! id = None →
  CreateSketch sketchID sketchType props w
  = Returned (Some (DuplicateId id (Typ (deref w p)))) w
  ∧ DeleteSketch sketchID sketchType w
    = Returned (Some (NotFound (no_such_sketch sketchID))) w
  ∧ AddToSketch sketchID sketchType values w
    = Returned (Some (NotFound (no_such_sketch_of_type sketchID sketchType))) w
  ∧ GetCountForSketch sketchID sketchType values w
    = Returned (VInt 0, Some (NotFound (no_such_sketch_of_type sketchID sketchType))) w.
Proof.
  intros id Hi Hs. split_and!.
  - by apply CreateSketch_registered.
  - unfold DeleteSketch. fold id. by rewrite Hs.
  - unfold AddToSketch. fold id. by rewrite Hs.
  - unfold GetCountForSketch. fold id. by rewrite Hs.
Qed.



(** *** What every sequence of calls keeps *)

(** The world in which a create that got past its checks and built its
    estimator ends, whether [dumpInfo] returns or panics. *)
Lemma CreateSketch_final sketchID sketchType props w :
  let id := canonical sketchID sketchType in
  let p := fresh (dom (heap w)) in
  let w' := final (CreateSketch sketchID sketchType props w) in
  (sketches w' = sketches w ∧ info w' = info w
   ∧ (heap w' = heap w ∨ heap w' = <[p := mkInfo id sketchType props ∅]> (heap w)))
  ∨ (info w !! id = None ∧ Z.of_nat (String.length id) ≤ MaxKeySize
     ∧ known sketchType
     ∧ (∃ sketch, sketches w' = <[id := Some sketch]> (sketches w))
     ∧ info w' = <[id := p]> (info w)
     ∧ heap w' = <[p := mkInfo id sketchType props ∅]> (heap w)).
Proof.
  intros id p w'. unfold w', CreateSketch. cbv zeta. fold id. fold p.
  destruct (info w !! id) eqn:Hinfo; [left; auto|].
  destruct (Z.ltb_spec MaxKeySize (Z.of_nat (String.length id))); [left; auto|].
  destruct (decide (sketchType = "")); [left; auto|].
  destruct (switch sketchType _ _ _ _) as [NewSketch|] eqn:Hsw; [|left; auto].
  destruct (NewSketch _ _) as [[sketch|e] st]; [|left; auto].
  right. unfold dumpInfo, deref. simpl. rewrite !lookup_insert_eq. simpl.
  split_and!; [done|done|by eapply switch_Some|..];
    destruct (json_Marshal _); cbn; eauto.
Qed.

Lemma maps_agree_step w w' : step w w' → maps_agree w → maps_agree w'.
Proof.
  intros Hstep Hag. destruct Hstep as [n t props w|n t w|n t vs w|n t vs w].
  - destruct (CreateSketch_final n t props w)
      as [(Hs & Hi & _)|(_ & _ & _ & [sk Hs] & Hi & _)];
      intros k; rewrite Hs, Hi; [apply Hag|].
    rewrite !lookup_insert. case_decide; [split; eauto|apply Hag].
  - unfold DeleteSketch. destruct (sketches w !! canonical n t); [|done].
    assert (∀ w1, sketches w1 = delete (canonical n t) (sketches w) →
              info w1 = delete (canonical n t) (info w) → maps_agree w1) as Hdel.
    { intros w1 Hs Hi k. rewrite Hs, Hi, !lookup_delete.
      case_decide; [by split; intros [? ?]|apply Hag]. }
    destruct (DeleteInfo _ _) as [st1 [e|]]; [by apply Hdel|].
    destruct (DeleteData _ _). by apply Hdel.
  - unfold AddToSketch.
    destruct (sketches w !! canonical n t) as [[c|]|] eqn:Hs; [|done..].
    destruct (AddMultiple _ _ _). intros k. cbn. rewrite lookup_insert.
    case_decide; [subst k|apply Hag].
    split; [intros _; apply Hag; eauto|eauto].
  - unfold DeleteFromSketch.
    destruct (sketches w !! n) as [[c|]|] eqn:Hs; [|done..].
    destruct (RemoveMultiple _ _ _) as [[? ?] ?]. intros k. cbn.
    rewrite lookup_insert.
    case_decide; [subst k|apply Hag].
    split; [intros _; apply Hag; eauto|eauto].
Qed.

Lemma maps_agree_rtc w0 w :
  fresh_start w0 → rtc step w0 w → maps_agree w.
Proof.
  intros [Hs Hi] Hsteps.
  assert (maps_agree w0) as Hag.
  { intros k. rewrite Hs, Hi, !lookup_empty. split; by intros [? ?]. }
  clear Hs Hi. induction Hsteps as [|w0 w1 w2 Hstep _ IH]; [done|].
  eauto using maps_agree_step.
Qed.

(** From a manager with two empty maps, whatever calls follow (those that
    panic too), [sketches] and [info] hold the same ids: what create
    tests and what delete, add and query test never come apart.  So an
    id is refused as a duplicate by create exactly when delete, add and
    query find it. *)
Theorem maps_hold_the_same_ids sketchID sketchType props values w0 w :
  fresh_start w0 → rtc step w0 w →
  let id := canonical sketchID sketchType in
  maps_agree w
  ∧ ((∃ typ, CreateSketch sketchID sketchType props w
             = Returned (Some (DuplicateId id typ)) w)
     ↔ AddToSketch sketchID sketchType values w
       ≠ Returned (Some (NotFound (no_such_sketch_of_type sketchID sketchType))) w).
Proof.
  intros Hfresh Hsteps id.
  pose proof (maps_agree_rtc w0 w Hfresh Hsteps) as Hag.
  split; [done|]. specialize (Hag id).
  unfold CreateSketch, AddToSketch. fold id.
  destruct (info w !! id) as [p|] eqn:Hi;
    destruct (sketches w !! id) as [[c|]|] eqn:Hs.
  - destruct (AddMultiple _ _ _). split; [done|eauto].
  - split; [done|eauto].
  - destruct (proj2 Hag) as [? [=]]. eauto.
  - destruct (proj1 Hag) as [? [=]]. eauto.
  - destruct (proj1 Hag) as [? [=]]. eauto.
  - split; [|done]. intros [typ Hc].
    destruct (Z.ltb_spec MaxKeySize (Z.of_nat (String.length id))); [done|].
    destruct (decide (sketchType = "")); [done|]. cbv zeta in Hc.
    destruct (switch sketchType _ _ _ _); [|done].
    destruct (_ (deref _ _) _) as [[?|?] ?]; [|done].
    by destruct (dumpInfo _ _).
Qed.

Lemma info_ok_step w w' : step w w' → info_ok w → info_ok w'.
Proof.
  intros Hstep Hok.
  assert (∀ w1, info w1 = info w → heap w1 = heap w → info_ok w1) as Hsame.
  { intros w1 Hi Hh id q. rewrite Hi, Hh. apply Hok. }
  destruct Hstep as [n t props w|n t w|n t vs w|n t vs w].
  - assert (∀ i q j, heap w !! q = Some j →
              <[fresh (dom (heap w)) := i]> (heap w) !! q = Some j) as Hkeep.
    { intros i q j Hq. rewrite lookup_insert_ne; [done|].
      intros <-. by rewrite fresh_unallocated in Hq. }
    destruct (CreateSketch_final n t props w)
      as [(_ & Hi & [Hh|Hh])|(_ & _ & Hkn & _ & Hi & Hh)];
      intros id q; rewrite Hi, Hh.
    + apply Hok.
    + intros (i & Hq & ?)%Hok. eauto.
    + rewrite lookup_insert. case_decide.
      * intros [= <-]. subst id. rewrite lookup_insert_eq. eauto.
      * intros (i & Hq & ?)%Hok. eauto.
  - unfold DeleteSketch. destruct (sketches w !! canonical n t); [|done].
    assert (∀ w1, info w1 = delete (canonical n t) (info w) →
              heap w1 = heap w → info_ok w1) as Hdel.
    { intros w1 Hi Hh id q. rewrite Hi, Hh, lookup_delete.
      case_decide; [done|apply Hok]. }
    destruct (DeleteInfo _ _) as [st1 [e|]]; [by apply Hdel|].
    destruct (DeleteData _ _). by apply Hdel.
  - unfold AddToSketch.
    destruct (sketches w !! canonical n t) as [[c|]|]; [|done..].
    destruct (AddMultiple _ _ _). by apply Hsame.
  - unfold DeleteFromSketch.
    destruct (sketches w !! n) as [[c|]|]; [|done..].
    destruct (RemoveMultiple _ _ _) as [[? ?] ?]. by apply Hsame.
Qed.

(** From a manager with two empty maps, whatever calls follow, every id
    of [info] points to a struct that carries this id and a known family
    tag; two ids never share a struct. *)
Theorem descriptors_carry_their_id w0 w :
  fresh_start w0 → rtc step w0 w →
  info_ok w
  ∧ ∀ id1 id2 p, info w !! id1 = Some p → info w !! id2 = Some p → id1 = id2.
Proof.
  intros [_ Hi] Hsteps.
  assert (info_ok w0) as Hok.
  { intros id p. by rewrite Hi, lookup_empty. }
  assert (info_ok w) as Hok'.
  { clear Hi. induction Hsteps as [|w0 w1 w2 Hstep _ IH]; [done|].
    eauto using info_ok_step. }
  split; [done|]. intros id1 id2 p (i1 & H1 & <- & _)%Hok' (i2 & H2 & <- & _)%Hok'.
  congruence.
Qed.

Lemma delete_or_same sketchID sketchType w :
  info (final (DeleteSketch sketchID sketchType w)) = info w
  ∨ info (final (DeleteSketch sketchID sketchType w))
    = delete (canonical sketchID sketchType) (info w).
Proof.
  unfold DeleteSketch.
  destruct (sketches w !! canonical sketchID sketchType); [|by left].
  destruct (DeleteInfo _ _) as [st1 [e|]]; [by right|].
  destruct (DeleteData _ _). by right.
Qed.

Lemma I2_step w w' : step w w' → I2 w → I2 w'.
Proof.
  intros Hstep Hb.
  assert (∀ w1, (∀ id q, info w1 !! id = Some q → is_Some (info w !! id)) →
            I2 w1) as Hsub.
  { intros w1 Hi id q [q' Hq']%Hi. by eapply Hb. }
  destruct Hstep as [n t props w|n t w|n t vs w|n t vs w].
  - by apply I2_CreateSketch.
  - apply Hsub. intros id q.
    destruct (delete_or_same n t w) as [->| ->]; [eauto|].
    rewrite lookup_delete. case_decide; [done|eauto].
  - apply Hsub. unfold AddToSketch.
    destruct (sketches w !! canonical n t) as [[c|]|]; [|eauto..].
    destruct (AddMultiple _ _ _). cbn. eauto.
  - apply Hsub. unfold DeleteFromSketch.
    destruct (sketches w !! n) as [[c|]|]; [|eauto..].
    destruct (RemoveMultiple _ _ _) as [[? ?] ?]. cbn. eauto.
Qed.

(** The bound on ids is kept: when every id of [info] fits [MaxKeySize],
    so does every id of [info] after any sequence of calls. *)
Theorem ids_stay_within_MaxKeySize w0 w :
  I2 w0 → rtc step w0 w → I2 w.
Proof.
  intros Hb Hsteps. induction Hsteps as [|w0 w1 w2 Hstep _ IH]; [done|].
  eauto using I2_step.
Qed.


(** *** Rehydration *)

Lemma loadInfo_turns_heap q (infos : list (string * Bytes)) w i :
  heap w !! q = Some i →
  let w' := foldl (λ w kv, loadInfo_turn q w kv.2) w infos in
  heap w' = <[q := foldl (λ i kv, json_Unmarshal kv.2 i) i infos]> (heap w)
  ∧ sketches w' = sketches w ∧ strg w' = strg w ∧ logger w' = logger w.
Proof.
  revert w i. induction infos as [|[k data] infos IH]; intros w i Hq.
  - cbn. by rewrite insert_id.
  - cbn [foldl].
    set (w1 := loadInfo_turn q w (k, data).2).
    assert (heap w1 !! q = Some (json_Unmarshal data i)) as Hq1.
    { unfold w1, loadInfo_turn, deref. cbn. rewrite Hq. cbn.
      by rewrite lookup_insert_eq. }
    destruct (IH w1 _ Hq1) as (-> & -> & -> & ->).
    unfold w1, loadInfo_turn, deref. cbn. rewrite Hq. cbn.
    by rewrite insert_insert_eq.
Qed.

Lemma loadInfo_one_merged w :
  info w = ∅ →
  let q := fresh (dom (heap w)) in
  match LoadAllInfo (strg w) with
  | inl infos =>
      ∃ w', loadInfo w = Returned None w'
        ∧ heap w' = <[q := merged infos]> (heap w)
        ∧ sketches w' = sketches w
        ∧ (∀ id p, info w' !! id = Some p → p = q)
  | inr err =>
      ∃ w', loadInfo w = Returned (Some err) w' ∧ sketches w' = sketches w
  end.
Proof.
  intros Hempty q. unfold loadInfo. cbv zeta. fold q. cbn.
  destruct (LoadAllInfo (strg w)) as [infos|err]; [|eauto].
  eexists. split; [done|].
  destruct (loadInfo_turns_heap q infos (set_heap (<[q := zero]>) w) zero)
    as (Hh & Hs & _); [apply lookup_insert_eq|].
  cbn in Hh, Hs. rewrite insert_insert_eq in Hh. split_and!; [done..|].
  intros id p Hp. apply (loadInfo_turns_one_pointer q) in Hp as ->; [done|].
  intros id' q'. cbn. by rewrite Hempty, lookup_empty.
Qed.

(** What [loadInfo] leaves in a manager that starts with an empty [info]:
    every id it has bound points to the one struct [infoStruct], and that
    struct holds all stored texts decoded over one another; an error of
    [LoadAllInfo] is returned as it is, with nothing bound. *)
Theorem loadInfo_leaves_one_merged_struct w :
  info w = ∅ →
  let q := fresh (dom (heap w)) in
  match LoadAllInfo (strg w) with
  | inl infos =>
      ∃ w', loadInfo w = Returned None w'
        ∧ heap w' = <[q := merged infos]> (heap w)
        ∧ (∀ id p, info w' !! id = Some p → p = q ∧ deref w' p = merged infos)
        ∧ (infos ≠ [] → info w' !! ID (merged infos) = Some q)
  | inr err =>
      ∃ w', loadInfo w = Returned (Some err) w' ∧ info w' = ∅
  end.
Proof.
  intros Hempty q. unfold loadInfo. cbv zeta. fold q. cbn.
  destruct (LoadAllInfo (strg w)) as [infos|err]; [|eauto].
  eexists. split; [done|].
  destruct (loadInfo_turns_heap q infos (set_heap (<[q := zero]>) w) zero)
    as (Hh & _); [apply lookup_insert_eq|].
  cbn in Hh. rewrite insert_insert_eq in Hh. split_and!.
  - exact Hh.
  - intros id p Hp.
    apply (loadInfo_turns_one_pointer q) in Hp as ->.
    + split; [done|]. unfold deref. rewrite Hh. by rewrite lookup_insert_eq.
    + intros id' q'. cbn. by rewrite Hempty, lookup_empty.
  - intros Hne. destruct (exists_last Hne) as (infos' & [k data] & ->).
    rewrite foldl_snoc. unfold merged. rewrite foldl_snoc.
    destruct (loadInfo_turns_heap q infos' (set_heap (<[q := zero]>) w) zero)
      as (Hh1 & _); [apply lookup_insert_eq|].
    cbn in Hh1.
    remember (foldl (λ w kv, loadInfo_turn q w kv.2)
                (set_heap (<[q := zero]>) w) infos') as w1 eqn:Hw1.
    unfold loadInfo_turn, deref. cbn.
    rewrite lookup_insert_eq. cbn. rewrite Hh1, lookup_insert_eq. cbn.
    by rewrite lookup_insert_eq.
Qed.

Lemma loadSketches_range_one_id q id (entries : list (string * loc)) w :
  (∀ key p, (key, p) ∈ entries → p = q) →
  ID (deref w q) = id →
  (∀ k, is_Some (sketches w !! k) → k = id) →
  ∀ k, is_Some (sketches (final (loadSketches_range entries w)) !! k) → k = id.
Proof.
  revert w. induction entries as [|[key p] entries IH]; intros w Hq Hid Hs;
    [done|].
  assert (p = q) as -> by (eapply Hq; by left).
  assert (∀ key p, (key, p) ∈ entries → p = q) as Hq'.
  { intros key' p' Hin. eapply Hq. by right. }
  cbn [loadSketches_range].
  assert (∀ c st lg k,
    is_Some (sketches (final (loadSketches_range entries
       (mkWorld (<[id := c]> (sketches w)) (info w) (heap w) st lg))) !! k) →
    k = id) as Hnext.
  { intros c st lg. apply IH; [done|done|]. intros k. cbn.
    rewrite lookup_insert. case_decide; [done|apply Hs]. }
  destruct (switch (Typ (deref w q)) _ _ _ _) as [FromData|].
  - destruct (FromData _ _) as [[sketch|err] st]; cbn.
    + unfold deref in *. cbn. rewrite Hid. apply Hnext.
    + exact Hs.
  - cbn. unfold deref in *. cbn. rewrite Hid. apply Hnext.
Qed.

(** Rehydration loads at most one sketch: whatever the info store holds,
    and whether [newManager] returns an error or not, [sketches] ends
    with at most one id, the one that the merged struct carries. *)
Theorem rehydration_loads_one_sketch_at_most w k :
  match LoadAllInfo (strg w) with
  | inl infos =>
      is_Some (sketches (final (newManager w)) !! k) → k = ID (merged infos)
  | inr _ => sketches (final (newManager w)) !! k = None
  end.
Proof.
  unfold newManager. cbv zeta.
  set (m := set_info (λ _, ∅) (set_sketches (λ _, ∅) w)).
  pose proof (loadInfo_one_merged m eq_refl) as Hload. cbn in Hload.
  destruct (LoadAllInfo (strg w)) as [infos|err].
  - destruct Hload as (w1 & -> & Hh & Hs & Hall).
    unfold loadSketches.
    apply (loadSketches_range_one_id (fresh (dom (heap w))) (ID (merged infos))).
    + intros key p Hin. rewrite (range_order_perm _ (info w1)) in Hin.
      apply elem_of_map_to_list in Hin. by eapply Hall.
    + unfold deref. by rewrite Hh, lookup_insert_eq.
    + intros k'. rewrite Hs. cbn. rewrite lookup_empty. by intros [? ?].
  - destruct Hload as (w1 & -> & Hs). cbn. by rewrite Hs.
Qed.

(** An info store that holds one descriptor, of a known family whose
    estimator can be rebuilt, is rehydrated as it should: [newManager]
    returns no error and leaves one sketch, under the id that the
    descriptor carries, with the descriptor in [info]. *)
Theorem one_descriptor_is_rehydrated w key data FromData sketch st :
  let i := json_Unmarshal data zero in
  let q := fresh (dom (heap w)) in
  LoadAllInfo (strg w) = inl [(key, data)] →
  switch (Typ i) (Some hllpp_NewSketchFromData) (Some topk_NewSketchFromData)
         (Some cml_NewSketchFromData) None = Some FromData →
  FromData i (strg w) = (inl sketch, st) →
  newManager w
  = Returned None
      (mkWorld {[ID i := Some sketch]} {[ID i := q]} (<[q := i]> (heap w))
               (LoadData (ID i) 0 0 st) (logger w)).
Proof.
  intros i q Hload Hsw Hnew. unfold newManager, loadInfo. cbv zeta. cbn.
  rewrite Hload. cbn. unfold loadInfo_turn, deref. cbn.
  fold q. rewrite !lookup_insert_eq. cbn. fold i.
  unfold loadSketches. cbn. rewrite insert_empty.
  assert (range_order ({[ID i := q]} : gmap string loc) = [(ID i, q)]) as ->.
  { apply Permutation_singleton_r.
    by rewrite (range_order_perm _ _), map_to_list_singleton. }
  cbn. unfold deref. cbn. rewrite lookup_insert_eq. cbn. fold i.
  rewrite Hsw, Hnew. cbn. rewrite lookup_insert_eq. cbn.
  unfold set_strg, set_sketches, set_info, set_heap. cbn.
  by rewrite insert_insert_eq, !insert_empty.
Qed.

(** *** The singleton *)

(** [GetManager] returns a manager or an error, never both and never
    neither.  A manager that was made is kept: later calls return it and
    touch nothing.  An error is not kept: the process is left as [Destroy]
    leaves it, so that the next call runs [newManager] again. *)
Theorem GetManager_keeps_what_it_made pr m err pr1 :
  GetManager pr = Returned (m, err) pr1 →
  (m = true ↔ err = None)
  ∧ manager pr1 = m
  ∧ (m = true → GetManager pr1 = Returned (true, None) pr1)
  ∧ (m = false → pr1 = Destroy pr1).
Proof.
  unfold GetManager. destruct (manager pr) eqn:Hm.
  - intros [= <- <- <-]. rewrite Hm. by split_and!.
  - destruct (newManager (world pr)) as [[e|] w|w]; [..|done].
    + intros [= <- <- <-]. cbn. by split_and!.
    + intros [= <- <- <-]. cbn. by split_and!.
Qed.

(** After [Destroy], with an info store that holds nothing, the next
    [GetManager] makes a manager without sketches, whatever the destroyed
    manager held: it returns no error, leaves the store as it is, and the
    listing is empty. *)
Theorem manager_of_an_empty_store_lists_nothing pr :
  LoadAllInfo (strg (world pr)) = inl [] →
  ∃ pr1, GetManager (Destroy pr) = Returned (true, None) pr1
    ∧ fresh_start (world pr1)
    ∧ strg (world pr1) = strg (world pr)
    ∧ GetSketches (world pr1) = Returned ([], None) (world pr1).
Proof.
  intros Hload. unfold GetManager, Destroy. cbn.
  unfold newManager, loadInfo. cbv zeta. cbn. rewrite Hload. cbn.
  unfold loadSketches. cbn.
  assert (range_order (∅ : gmap string loc) = []) as ->.
  { apply Permutation_nil_r. by rewrite (range_order_perm _ _), map_to_list_empty. }
  cbn. eexists. split_and!; [done|done|done|].
  unfold GetSketches. cbn.
  assert (range_order (∅ : gmap string (option Sk)) = []) as ->.
  { apply Permutation_nil_r. by rewrite (range_order_perm _ _), map_to_list_empty. }
  done.
Qed.

Section MoreListing.

Context {ids : IdentityAccessors}.

Lemma canonical_has_a_dot (name typ : string) : ¬ dot_free (canonical name typ).
Proof.
  intros Hfree. apply Hfree. unfold canonical. rewrite ascii_app.
  apply elem_of_app. right.
  change ("." +:+ typ) with (String "." typ). cbn. by left.
Qed.

(** In every state that calls lead to from an empty catalog, remove on a
    name without a dot finds nothing, whatever the family and whatever is
    registered: it returns "no such sketch" and changes nothing.  It
    reaches an estimator only for a [sketchID] that is itself a key of
    [sketches], and then returns what [RemoveMultiple] returns. *)
Theorem remove_finds_no_plain_name sketchID sketchType values w :
  reachable w →
  (dot_free sketchID →
   DeleteFromSketch sketchID sketchType values w
   = Returned (Some (NotFound (no_such_sketch_colon sketchID))) w)
  ∧ (∀ counter, sketches w !! sketchID = Some (Some counter) →
       ∃ name, sketchID = canonical name (GetType counter)
         ∧ DeleteFromSketch sketchID sketchType values w
           = Returned (RemoveMultiple (to_bytes values) counter (strg w)).2
               (set_sketches
                  (<[sketchID
                     := Some (RemoveMultiple (to_bytes values) counter (strg w)).1.1]>)
                  (set_strg (RemoveMultiple (to_bytes values) counter (strg w)).1.2
                            w))).
Proof.
  intros Hok%catalog_ok_reachable. split.
  - intros Hfree. unfold DeleteFromSketch.
    destruct (sketches w !! sketchID) as [c|] eqn:Hs; [|done].
    destruct (Hok _ _ Hs) as (sk & name & _ & _ & _ & ->).
    by destruct (canonical_has_a_dot name (GetType sk)).
  - intros counter Hs.
    destruct (Hok _ _ Hs) as (sk & name & [= <-] & _ & _ & Hk).
    exists name. split; [done|]. unfold DeleteFromSketch. rewrite Hs.
    by destruct (RemoveMultiple _ _ _) as [[? ?] ?].
Qed.

(** From a manager with two empty maps and whatever calls: a create that
    succeeds makes the listing one entry longer, and a delete of a
    registered sketch makes it one entry shorter. *)
Theorem listing_grows_and_shrinks_by_one sketchID sketchType props w0 w :
  fresh_start w0 → rtc step w0 w →
  ∃ l, GetSketches w = Returned (l, None) w
    ∧ (∀ w1, CreateSketch sketchID sketchType props w = Returned None w1 →
         ∃ l1, GetSketches w1 = Returned (l1, None) w1
               ∧ length l1 = S (length l))
    ∧ (is_Some (sketches w !! canonical sketchID sketchType) →
       ∃ l2, GetSketches (final (DeleteSketch sketchID sketchType w))
             = Returned (l2, None) (final (DeleteSketch sketchID sketchType w))
             ∧ S (length l2) = length l).
Proof.
  intros Hfresh Hsteps.
  assert (catalog_ok w) as Hok.
  { apply catalog_ok_reachable. exists w0. split; [apply Hfresh|done]. }
  pose proof (maps_agree_rtc w0 w Hfresh Hsteps) as Hag.
  assert (known HLLPP) as Hkn by (by left).
  destruct (GetSketches_catalog_ok w "" HLLPP Hok Hkn) as (l & Hl & Hlen & _).
  exists l. split_and!; [done|..].
  - intros w1 Hc.
    pose proof (catalog_ok_CreateSketch sketchID sketchType props w Hok) as Hok1.
    rewrite Hc in Hok1. cbn in Hok1.
    destruct (GetSketches_catalog_ok w1 "" HLLPP Hok1 Hkn)
      as (l1 & Hl1 & Hlen1 & _).
    exists l1. split; [done|]. rewrite Hlen1, Hlen.
    destruct (CreateSketch_success _ _ _ _ _ Hc)
      as (NewSketch & sketch & st & data & _ & _ & _ & Hi & _ & ->).
    cbn. apply map_size_insert_None.
    destruct (sketches w !! canonical sketchID sketchType) eqn:Hs; [|done].
    assert (is_Some (info w !! canonical sketchID sketchType)) as [? ?]
      by (apply Hag; eauto).
    congruence.
  - intros Hreg.
    pose proof (catalog_ok_DeleteSketch sketchID sketchType w Hok) as Hok2.
    destruct (GetSketches_catalog_ok _ "" HLLPP Hok2 Hkn)
      as (l2 & Hl2 & Hlen2 & _).
    exists l2. split; [done|]. rewrite Hlen2, Hlen.
    destruct (DeleteSketch_registered sketchID sketchType w Hreg) as [-> _].
    rewrite (map_size_delete_Some _ _ Hreg).
    pose proof (map_size_ne_0_lookup_2 _ _ Hreg). lia.
Qed.

End MoreListing.

End More.

(** ** The further properties on concrete inputs *)

Import Runs.

Lemma fresh_start_boot b : fresh_start (boot b).
Proof. done. Qed.

Lemma steps_to_both : rtc step (boot false) both.
Proof.
  unfold both, marvel_fed, marvel.
  eapply rtc_l; [apply (step_create "marvel" "cardinality" capacity)|].
  eapply rtc_l;
    [apply (step_add "marvel" "cardinality" ["magneto"; "wasp"; "beast"])|].
  eapply rtc_l; [apply (step_create "x-force" "frequency" capacity)|].
  eapply rtc_l;
    [apply (step_add "x-force" "frequency"
              ["magneto"; "wasp"; "beast"; "magneto"])|].
  apply rtc_refl.
Qed.

Lemma known_frequency : known "frequency".
Proof. right. right. reflexivity. Qed.

Lemma known_cardinality : known "cardinality".
Proof. left. reflexivity. Qed.

Lemma canonical_id_of_one_pair_witness :
  (known "cardinality" ∧ known "frequency")
  ∧ (canonical "x.frequency" "cardinality" = canonical "x" "frequency"
     ↔ "x.frequency" = "x" ∧ "cardinality" = "frequency").
Proof.
  split; [split; [exact known_cardinality|exact known_frequency]|].
  exact (canonical_id_of_one_pair "x.frequency" "x" "cardinality" "frequency"
           known_cardinality known_frequency).
Defined.

Lemma create_error_registers_nothing_witness :
  CreateSketch "marvel" "bloom" capacity marvel
  = Returned (Some (UnknownFamily "bloom"))
      (set_heap (<[2%positive := mkInfo "marvel.bloom" "bloom" capacity ∅]>) marvel)
  ∧ sketches (set_heap (<[2%positive := mkInfo "marvel.bloom" "bloom" capacity ∅]>)
                marvel) = sketches marvel.
Proof.
  assert (CreateSketch "marvel" "bloom" capacity marvel
          = Returned (Some (UnknownFamily "bloom"))
              (set_heap (<[2%positive := mkInfo "marvel.bloom" "bloom" capacity ∅]>)
                 marvel)) as Hc by (vm_compute; reflexivity).
  split; [exact Hc|].
  exact (proj1 (create_error_registers_nothing "marvel" "bloom" capacity marvel
                  _ _ Hc)).
Defined.

Lemma create_panics_half_way_witness :
  let i := mkInfo "marvel.cardinality" "cardinality" not_a_number ∅ in
  json_Marshal i = inr (Foreign "json: unsupported value")
  ∧ CreateSketch "marvel" "cardinality" not_a_number (boot false)
    = Panicked (mkWorld {[ "marvel.cardinality" := Some (mkTally i []) ]}
                        {[ "marvel.cardinality" := 1%positive ]}
                        {[ 1%positive := i ]} (mkStore ∅ ∅ false) []).
Proof.
  intros i.
  assert (json_Marshal i = inr (Foreign "json: unsupported value")) as Hm
    by (vm_compute; reflexivity).
  split; [exact Hm|].
  assert (info (boot false) !! canonical "marvel" "cardinality" = None) as H1
    by done.
  assert (Z.of_nat (String.length (canonical "marvel" "cardinality")) ≤ MaxKeySize)
    as H2 by (vm_compute; discriminate).
  assert ("cardinality" ≠ "") as H3 by done.
  assert (switch "cardinality" (Some hllpp_NewSketch) (Some topk_NewSketch)
            (Some cml_NewSketch) None = Some tally_New) as H4 by done.
  assert (tally_New i (strg (boot false)) = (inl (mkTally i []), mkStore ∅ ∅ false))
    as H5 by done.
  exact (proj1 (create_panics_half_way "marvel" "cardinality" not_a_number
                  (boot false) tally_New (mkTally i []) (mkStore ∅ ∅ false) _
                  H1 H2 H3 H4 H5 Hm)).
Defined.

Lemma created_sketch_is_usable_witness :
  CreateSketch "marvel" "cardinality" capacity (boot false) = Returned None marvel
  ∧ (∃ w2, AddToSketch "marvel" "cardinality" ["magneto"] marvel = Returned None w2)
  ∧ (∃ r, GetCountForSketch "marvel" "cardinality" ["magneto"] marvel
          = Returned (r, None) marvel).
Proof.
  assert (CreateSketch "marvel" "cardinality" capacity (boot false)
          = Returned None marvel) as Hc by (vm_compute; reflexivity).
  split; [exact Hc|].
  exact (created_sketch_is_usable "marvel" "cardinality" capacity ["magneto"]
           (boot false) marvel Hc).
Defined.

Lemma create_then_delete_restores_the_maps_witness :
  (CreateSketch "x-force" "frequency" capacity marvel_fed
   = Returned None (final (CreateSketch "x-force" "frequency" capacity marvel_fed))
   ∧ sketches marvel_fed !! canonical "x-force" "frequency" = None)
  ∧ sketches (final (DeleteSketch "x-force" "frequency"
                (final (CreateSketch "x-force" "frequency" capacity marvel_fed))))
    = sketches marvel_fed
  ∧ info (final (DeleteSketch "x-force" "frequency"
            (final (CreateSketch "x-force" "frequency" capacity marvel_fed))))
    = info marvel_fed.
Proof.
  assert (CreateSketch "x-force" "frequency" capacity marvel_fed
          = Returned None
              (final (CreateSketch "x-force" "frequency" capacity marvel_fed)))
    as Hc by (vm_compute; reflexivity).
  assert (sketches marvel_fed !! canonical "x-force" "frequency" = None) as Hs
    by (vm_compute; reflexivity).
  split; [by split|].
  exact (create_then_delete_restores_the_maps "x-force" "frequency" capacity
           marvel_fed _ Hc Hs).
Defined.

Lemma id_in_info_only_is_stuck_witness :
  (info lost !! canonical "marvel" "cardinality" = Some 1%positive
   ∧ sketches lost !! canonical "marvel" "cardinality" = None)
  ∧ CreateSketch "marvel" "cardinality" capacity lost
    = Returned (Some (DuplicateId "marvel.cardinality" "frequency")) lost
  ∧ DeleteSketch "marvel" "cardinality" lost
    = Returned (Some (NotFound "No such sketch marvel")) lost.
Proof.
  assert (info lost !! canonical "marvel" "cardinality" = Some 1%positive) as Hi
    by (vm_compute; reflexivity).
  assert (sketches lost !! canonical "marvel" "cardinality" = None) as Hs
    by (vm_compute; reflexivity).
  split; [by split|].
  destruct (id_in_info_only_is_stuck "marvel" "cardinality" capacity []
              lost 1%positive Hi Hs) as (Hc & Hd & _).
  split; [|exact Hd].
  rewrite Hc. f_equal.
Defined.

Lemma maps_hold_the_same_ids_witness :
  (fresh_start (boot false) ∧ rtc step (boot false) both)
  ∧ maps_agree both.
Proof.
  split; [split; [exact (fresh_start_boot false)|exact steps_to_both]|].
  exact (proj1 (maps_hold_the_same_ids "x-force" "frequency" capacity []
                  (boot false) both (fresh_start_boot false) steps_to_both)).
Defined.

Lemma descriptors_carry_their_id_witness :
  (fresh_start (boot false) ∧ rtc step (boot false) both)
  ∧ info_ok both.
Proof.
  split; [split; [exact (fresh_start_boot false)|exact steps_to_both]|].
  exact (proj1 (descriptors_carry_their_id (boot false) both
                  (fresh_start_boot false) steps_to_both)).
Defined.

Lemma I2_boot : I2 (boot false).
Proof. intros id p. unfold boot. cbn. by rewrite lookup_empty. Qed.

Lemma ids_stay_within_MaxKeySize_witness :
  (I2 (boot false) ∧ rtc step (boot false) both) ∧ I2 both.
Proof.
  split; [split; [exact I2_boot|exact steps_to_both]|].
  exact (ids_stay_within_MaxKeySize (boot false) both I2_boot steps_to_both).
Defined.

Lemma dot_free_x_force : dot_free "x-force".
Proof.
  unfold dot_free. cbn. intros Hin.
  repeat (apply elem_of_cons in Hin as [Hin|Hin]; [discriminate Hin|]).
  by apply elem_of_nil in Hin.
Qed.

Lemma remove_finds_no_plain_name_witness :
  (reachable both ∧ dot_free "x-force")
  ∧ DeleteFromSketch "x-force" "frequency" ["magneto"] both
    = Returned (Some (NotFound (no_such_sketch_colon "x-force"))) both.
Proof.
  split; [split; [exact reachable_both|exact dot_free_x_force]|].
  exact (proj1 (remove_finds_no_plain_name (ids := tally_identity)
                  "x-force" "frequency" ["magneto"] both reachable_both)
           dot_free_x_force).
Defined.

Lemma listing_grows_and_shrinks_by_one_witness :
  (fresh_start (boot false) ∧ rtc step (boot false) both)
  ∧ ∃ l, GetSketches both = Returned (l, None) both
      ∧ (is_Some (sketches both !! canonical "marvel" "cardinality") →
         ∃ l2, GetSketches (final (DeleteSketch "marvel" "cardinality" both))
               = Returned (l2, None) (final (DeleteSketch "marvel" "cardinality" both))
               ∧ S (length l2) = length l).
Proof.
  split; [split; [exact (fresh_start_boot false)|exact steps_to_both]|].
  destruct (listing_grows_and_shrinks_by_one (ids := tally_identity)
              "marvel" "cardinality" capacity (boot false) both
              (fresh_start_boot false) steps_to_both) as (l & Hl & _ & Hd).
  exists l. by split.
Defined.

Lemma loadInfo_leaves_one_merged_struct_witness :
  info (restart both) = ∅
  ∧ ∃ w', loadInfo (restart both) = Returned None w'
      ∧ (∀ id p, info w' !! id = Some p →
           p = 1%positive
           ∧ deref w' p = mkInfo "x-force.frequency" "frequency" capacity ∅).
Proof.
  assert (info (restart both) = ∅) as He by done.
  split; [exact He|].
  pose proof (loadInfo_leaves_one_merged_struct (restart both) He) as H.
  cbv zeta in H.
  change (LoadAllInfo (strg (restart both)))
    with (inl (B := error) (map_to_list (infoDB (strg both)))) in H.
  cbv beta iota in H.
  destruct H as (w' & Hl & _ & Hall & _).
  exists w'. split; [exact Hl|].
  intros id p Hp. destruct (Hall id p Hp) as [-> ->]. split.
  - vm_compute. reflexivity.
  - vm_compute. reflexivity.
Defined.

Lemma one_descriptor_is_rehydrated_witness :
  let i := mkInfo "marvel.cardinality" "cardinality" capacity ∅ in
  let items := to_bytes ["magneto"; "wasp"; "beast"] in
  LoadAllInfo (strg (restart marvel_fed))
  = inl [("marvel.cardinality",
          Object (mkJson (Some "marvel.cardinality") (Some "cardinality")
                         (Some capacity) (Some ∅)))]
  ∧ newManager (restart marvel_fed)
    = Returned None
        (mkWorld {[ "marvel.cardinality" := Some (mkTally i items) ]}
                 {[ "marvel.cardinality" := 1%positive ]}
                 {[ 1%positive := i ]} (strg marvel_fed) []).
Proof.
  intros i items.
  assert (LoadAllInfo (strg (restart marvel_fed))
          = inl [("marvel.cardinality",
                  Object (mkJson (Some "marvel.cardinality") (Some "cardinality")
                                 (Some capacity) (Some ∅)))]) as Hload
    by (vm_compute; reflexivity).
  split; [exact Hload|].
  assert (switch (Typ (json_Unmarshal
                         (Object (mkJson (Some "marvel.cardinality")
                                    (Some "cardinality") (Some capacity) (Some ∅)))
                         zero))
            (Some hllpp_NewSketchFromData) (Some topk_NewSketchFromData)
            (Some cml_NewSketchFromData) None = Some tally_FromData) as Hsw
    by (vm_compute; reflexivity).
  assert (tally_FromData
            (json_Unmarshal
               (Object (mkJson (Some "marvel.cardinality") (Some "cardinality")
                          (Some capacity) (Some ∅))) zero)
            (strg (restart marvel_fed))
          = (inl (mkTally i items), strg marvel_fed)) as Hnew
    by (vm_compute; reflexivity).
  rewrite (one_descriptor_is_rehydrated (restart marvel_fed) _ _ _ _ _
             Hload Hsw Hnew).
  vm_compute. reflexivity.
Defined.

Lemma GetManager_keeps_what_it_made_witness :
  GetManager cold = Returned (true, None) (mkProcess true (final (newManager (world cold))))
  ∧ GetManager (mkProcess true (final (newManager (world cold))))
    = Returned (true, None) (mkProcess true (final (newManager (world cold)))).
Proof.
  assert (GetManager cold
          = Returned (true, None)
              (mkProcess true (final (newManager (world cold))))) as Hg
    by (vm_compute; reflexivity).
  split; [exact Hg|].
  exact (proj1 (proj2 (proj2 (GetManager_keeps_what_it_made cold true None _ Hg)))
           eq_refl).
Defined.

Lemma manager_of_an_empty_store_lists_nothing_witness :
  LoadAllInfo (strg (world (mkProcess true (final (CreateSketch "marvel"
                 "cardinality" capacity (boot true)))))) = inl []
  ∧ ∃ pr1, GetManager (Destroy (mkProcess true (final (CreateSketch "marvel"
                 "cardinality" capacity (boot true)))))
           = Returned (true, None) pr1
      ∧ GetSketches (world pr1) = Returned ([], None) (world pr1).
Proof.
  assert (LoadAllInfo (strg (world (mkProcess true (final (CreateSketch "marvel"
                 "cardinality" capacity (boot true)))))) = inl []) as Hload
    by (vm_compute; reflexivity).
  split; [exact Hload|].
  destruct (manager_of_an_empty_store_lists_nothing _ Hload)
    as (pr1 & Hg & _ & _ & Hl).
  exists pr1. by split.
Defined.
